(** * CardGame: a shallow embedding of card_game.py

    The module card_game.py defines four classes, [Card], [Deck], [Player]
    and [CardGame].  Each of them is embedded below in the order of the
    source, followed by the properties of the game that are stated about
    them.

    Conventions of the embedding:
    - a Python [int] is a [Z], a [str] a [string], a [list] a [list];
    - the class dictionary [Card.suit_values] is a [gmap string Z], and a
      subscript [d[k]] on a missing key raises [KeyError];
    - a method that can raise returns a [result];
    - [Player] objects are mutable and are referred to from the list
      [CardGame.players]: they live in a store ([heap]) and the list holds
      their addresses. *)

From Stdlib Require Import ZArith Lia.
From stdpp Require Import base list strings gmap sorting pretty.

Local Open Scope Z_scope.

(** ** Exceptions *)

(** The exceptions the module can raise.  [Dangling] is not a Python
    exception: it is the outcome of reading the store at an address that
    holds no object, which cannot happen in Python and does not happen in
    any state reached from [CardGame_init] (see [refs_valid]). *)
Inductive exn : Type :=
  | KeyError (key : string)
  | ValueError (msg : string)
  | IndexError (msg : string)
  | Dangling (addr : nat).

Inductive result (A : Type) : Type :=
  | Ok (a : A)
  | Raise (e : exn).

Arguments Ok {A} a.
Arguments Raise {A} e.

(** Sequencing: an exception raised by the first computation is the
    outcome of the whole.  The notation [x ← m; k] is the one of stdpp's
    [MBind]. *)
#[export] Instance result_bind : MBind result := fun A B k m =>
  match m with
  | Ok a => k a
  | Raise e => Raise e
  end.

(** A [for] loop whose body can raise, over the list it iterates. *)
Fixpoint for_each {A S : Type} (body : S -> A -> result S) (s : S) (l : list A)
  : result S :=
  match l with
  | [] => Ok s
  | x :: l' => s' ← body s x; for_each body s' l'
  end.

(** [range(a, b)] *)
Definition py_range (a b : Z) : list Z :=
  map (fun i : nat => a + Z.of_nat i) (seq 0 (Z.to_nat (b - a))).

(** [d[k]] on a dictionary with string keys *)
Definition subscript (d : gmap string Z) (k : string) : result Z :=
  match d !! k with
  | Some v => Ok v
  | None => Raise (KeyError k)
  end.

(** [l[i]] on a list: a negative index counts from the end. *)
Definition list_item {A : Type} (l : list A) (i : Z) : result A :=
  let j := if i <? 0 then Z.of_nat (length l) + i else i in
  if j <? 0 then Raise (IndexError "list index out of range")
  else match l !! Z.to_nat j with
       | Some x => Ok x
       | None => Raise (IndexError "list index out of range")
       end.

(** ** A stable sort by key

    [list.sort(key=k)] is a stable sort in ascending order of the keys.
    The result of a stable sort is determined by its input and the order
    on the keys; it is computed here by insertion from the right, each
    element being put before the first element whose key is not smaller,
    so that elements of equal keys keep the order they had. *)
Section StableSort.
Context {A : Type} (leb : A -> A -> bool).

Fixpoint insert_stable (x : A) (l : list A) : list A :=
  match l with
  | [] => [x]
  | y :: l' => if leb x y then x :: l else y :: insert_stable x l'
  end.

Fixpoint stable_sort (l : list A) : list A :=
  match l with
  | [] => []
  | x :: l' => insert_stable x (stable_sort l')
  end.
End StableSort.

Definition sort_by_key {A : Type} (key : A -> Z) : list A -> list A :=
  stable_sort (fun x y => key x <=? key y).

(** The order that compares by [major] first and, between elements that
    [major] holds equivalent, by [minor]. *)
Definition lex_leb {A : Type} (major minor : A -> A -> bool) (x y : A) : bool :=
  major x y && (negb (major y x) || minor x y).

(** ** class Card *)

Definition suit_values : gmap string Z :=
  <["Spades" := 1]> (<["Diamonds" := 2]> (<["Hearts" := 3]> (<["Clubs" := 4]> ∅))).

Record Card : Type := mkCard {
  rank : Z;
  suit : string;
  suit_sort : Z
}.

(** [Card.__init__] *)
Definition Card_init (rank : Z) (suit : string) : result Card :=
  w ← subscript suit_values suit;
  Ok (mkCard rank suit w).

(** [Card.card_value] *)
Definition card_value (self : Card) : result Z :=
  w ← subscript suit_values (suit self);
  Ok (rank self * w).

(** [Card.__gt__] *)
Definition Card_gt (self other : Card) : result bool :=
  if String.eqb (suit self) (suit other) then
    Ok (rank self >? rank other)
  else
    a ← subscript suit_values (suit self);
    b ← subscript suit_values (suit other);
    Ok (a >? b).

(** ** class Deck *)

Definition suits : list string := ["Spades"; "Diamonds"; "Hearts"; "Clubs"]%string.

(** The attribute [the_deck]: the cards, top of the deck first. *)
Definition Deck : Type := list Card.

(** [Deck.__init__] *)
Definition Deck_init : result Deck :=
  for_each (fun the_deck suit =>
    for_each (fun the_deck rank =>
      new_card ← Card_init rank suit;
      Ok (the_deck ++ [new_card])) the_deck (py_range 2 15)) [] suits.

(** [Deck.sort]: two stable sorts, by rank and then by [suit_sort]. *)
Definition Deck_sort (the_deck : Deck) : Deck :=
  sort_by_key suit_sort (sort_by_key rank the_deck).

(** [Deck.deal]: the card returned ([None] on an empty deck) and the deck
    that is left. *)
Definition Deck_deal (the_deck : Deck) : option Card * Deck :=
  match the_deck with
  | [] => (None, [])
  | top :: rest => (Some top, rest)
  end.

(** ** class Player *)

Record Player : Type := mkPlayer {
  name : string;
  cards : list Card;
  player_score : Z
}.

(** [Player.__init__]: [str(name)] of an [int] is its decimal notation. *)
Definition Player_init (name : Z) : Player :=
  mkPlayer ("Player " +:+ pretty name) [] 0.

(** [Player.add_card].  [card_value] raises only for a card whose suit is
    not a key of [suit_values], and [Card_init] builds no such card. *)
Definition add_card (self : Player) (new_card : Card) : result Player :=
  v ← card_value new_card;
  Ok (mkPlayer (name self) (cards self ++ [new_card]) (player_score self + v)).

(** [Player.score] *)
Definition score (self : Player) : Z := player_score self.

(** [Player.__gt__] *)
Definition Player_gt (self other : Player) : bool :=
  player_score self >? player_score other.

(** ** class CardGame *)

Definition GAME_PLAYERS_REQUIRED : Z := 2.

(** A game and the [Player] objects it refers to: [heap] is the store of
    the [Player] objects, an object being named by its position in it, and
    [players] is the attribute [self.players], a list of such names. *)
Record CardGame : Type := mkCardGame {
  heap : list Player;
  players : list nat;
  num_players : Z;
  sort_deck : bool;
  cards_per_player : Z
}.

(** Reading and writing the object at an address. *)
Definition deref (h : list Player) (r : nat) : result Player :=
  match h !! r with
  | Some p => Ok p
  | None => Raise (Dangling r)
  end.

Definition set_heap (g : CardGame) (h : list Player) : CardGame :=
  mkCardGame h (players g) (num_players g) (sort_deck g) (cards_per_player g).

Definition set_players (g : CardGame) (ps : list nat) : CardGame :=
  mkCardGame (heap g) ps (num_players g) (sort_deck g) (cards_per_player g).

(** Every address held by [self.players] names an object of the store. *)
Definition refs_valid (g : CardGame) : Prop :=
  Forall (fun r => (r < length (heap g))%nat) (players g).

(** [CardGame.__init__] *)
Definition CardGame_init (num_players : Z) (sort_deck : bool)
    (cards_per_player : Z) : result CardGame :=
  let self := mkCardGame [] [] num_players sort_deck cards_per_player in
  if negb (num_players =? GAME_PLAYERS_REQUIRED) then
    Raise (ValueError "Incorrect player count specified.")
  else
    for_each (fun self player_name =>
      Ok (mkCardGame (heap self ++ [Player_init player_name])
                     (players self ++ [length (heap self)])
                     num_players sort_deck cards_per_player))
      self (py_range 1 (num_players + 1)).

(** The [while] loop of [play_card_game].  Every turn of the loop either
    leaves it or takes a card off the deck, so the loop is defined by
    recursion on the deck; the [match] is the call [deck.deal()] and the
    test of its result (see [deal_loop_deal]). *)
Fixpoint deal_loop (deck : Deck) (current_player cards_to_deal : Z)
    (self : CardGame) : result CardGame :=
  if cards_to_deal >? 0 then
    match deck with
    | [] => Ok self
    | next_card :: deck' =>
        r ← list_item (players self) current_player;
        p ← deref (heap self) r;
        p' ← add_card p next_card;
        deal_loop deck' ((current_player + 1) `mod` num_players self)
          (cards_to_deal - 1) (set_heap self (<[r := p']> (heap self)))
    end
  else Ok self.

(** [CardGame.play_card_game].  [random.shuffle] is a parameter: the
    rearrangement it makes of the deck it is given. *)
Definition play_card_game (shuffle : Deck -> Deck) (self : CardGame)
    : result CardGame :=
  deck ← Deck_init;
  let deck := shuffle deck in
  let deck := if sort_deck self then Deck_sort deck else deck in
  deal_loop deck 0 (num_players self * cards_per_player self) self.

(** The [while] loop of [show_winner]: [ps] is what is left of
    [self.players], every turn pops its first element. *)
Fixpoint winner_loop (h : list Player) (ps : list nat) (winner : nat)
    : result nat :=
  match ps with
  | [] => Ok winner
  | compare :: ps' =>
      c ← deref h compare;
      w ← deref h winner;
      winner_loop h ps' (if Player_gt c w then compare else winner)
  end.

(** [CardGame.show_winner]: the name returned and the game it leaves.
    The list [self.players] is emptied by the calls of [pop(0)]. *)
Definition show_winner (self : CardGame) : result (string * CardGame) :=
  match players self with
  | [] => Raise (IndexError "pop from empty list")
  | winner :: ps =>
      winner ← winner_loop (heap self) ps winner;
      w ← deref (heap self) winner;
      Ok (name w, set_players self [])
  end.

(** ** Vocabulary of the properties *)

(** The ranks and suits of a standard deck. *)
Definition legal_rank (r : Z) : Prop := 2 <= r <= 14.
Definition legal_suit (s : string) : Prop := s ∈ suits.

(** Ascending order of suit weight, then of rank within a suit. *)
Definition card_le (a b : Card) : Prop :=
  suit_sort a < suit_sort b \/ (suit_sort a = suit_sort b /\ rank a <= rank b).

(** The two orders [Deck.sort] sorts by, as boolean tests on the keys. *)
Definition rank_leb (a b : Card) : bool := rank a <=? rank b.
Definition suit_leb (a b : Card) : bool := suit_sort a <=? suit_sort b.

(** The sum of [card_value] over a hand. *)
Definition hand_value (hand : list Card) : result Z :=
  for_each (fun total c => v ← card_value c; Ok (total + v)) 0 hand.

Definition score_invariant (p : Player) : Prop :=
  hand_value (cards p) = Ok (score p).

(** The states of a player: as constructed, or after [add_card]. *)
Inductive player_state : Player -> Prop :=
  | state_init (name : Z) : player_state (Player_init name)
  | state_add_card p c p' :
      player_state p -> add_card p c = Ok p' -> player_state p'.

(** [n] calls of [deal] in a row: what they return and the deck left. *)
Fixpoint deal_many (n : nat) (the_deck : Deck) : list (option Card) * Deck :=
  match n with
  | O => ([], the_deck)
  | S n' =>
      let '(c, rest) := Deck_deal the_deck in
      let '(cs, final) := deal_many n' rest in
      (c :: cs, final)
  end.

(** The cards of one suit, and the 52 cards suit by suit. *)
Definition suit_cards (s : string) (w : Z) : list Card :=
  map (fun r => mkCard r s w) (py_range 2 15).

Definition standard_deck : Deck :=
  suit_cards "Spades" 1 ++ suit_cards "Diamonds" 2
  ++ suit_cards "Hearts" 3 ++ suit_cards "Clubs" 4.

(** Two rearrangements of a deck, for the examples: the deck upside down,
    and the deck with its 14th card moved to the sixth place (a new deck
    then starts with the 2 to 6 of Spades and the 2 of Diamonds). *)
Definition reverse_shuffle (d : Deck) : Deck := rev d.

Definition tie_shuffle (d : Deck) : Deck :=
  match d !! 13%nat with
  | Some c => take 5 (delete 13%nat d) ++ c :: drop 5 (delete 13%nat d)
  | None => d
  end.

(** A game of two new players, as [CardGame(2)] builds it. *)
Definition new_game : CardGame :=
  mkCardGame [Player_init 1; Player_init 2] [0; 1]%nat 2 false 3.

(** ** The rest of the module *)

(** [Card.face_value] *)
Definition face_value : gmap Z string :=
  <[11 := "Jack"]> (<[12 := "Queen"]> (<[13 := "King"]> (<[14 := "Ace"]> ∅))).

(** The local [face] of [Card.__str__], once formatted by [%s]: the name
    of a face card, or the decimal notation of the rank. *)
Definition face (rank : Z) : string :=
  match face_value !! rank with
  | Some f => f
  | None => pretty rank
  end.

(** [Card.__str__] *)
Definition Card_str (self : Card) : string :=
  face (rank self) +:+ " of " +:+ suit self.

(** [Deck.show_deck]: the lines it prints, one call of [print] each. *)
Definition show_deck (the_deck : Deck) : list string :=
  map Card_str the_deck.

(** The line feed of the string literals. *)
Definition newline : string := String (Ascii.ascii_of_nat 10) "".

(** [main], from the parsed arguments [args.num_players] and [args.sort]
    on: the lines printed and the value returned, [None] where the
    function ends without a [return].  Only [ValueError] is caught. *)
Definition main (num_players : Z) (sort : bool) (shuffle : Deck -> Deck)
    : result (list string * option Z) :=
  match CardGame_init num_players sort 3 with
  | Raise (ValueError exception) =>
      Ok (["Game over. " +:+ exception +:+ newline +:+ newline], None)
  | Raise e => Raise e
  | Ok game =>
      game ← play_card_game shuffle game;
      shown ← show_winner game;
      Ok ([shown.1 +:+ " wins!"], Some 0)
  end.

(** A card as [Card.__init__] builds it. *)
Definition constructed (c : Card) : Prop := Card_init (rank c) (suit c) = Ok c.

(** The first, third, fifth, ... elements of a list. *)
Fixpoint every_other {A : Type} (l : list A) : list A :=
  match l with
  | [] => []
  | x :: l' => x :: match l' with
                    | [] => []
                    | _ :: l'' => every_other l''
                    end
  end.

(** The deck [play_card_game] deals from in a game of two players. *)
Definition dealing_deck (shuffle : Deck -> Deck) (sort : bool) : Deck :=
  if sort then standard_deck else shuffle standard_deck.

(** The cards dealt: at most [num_players * cards_per_player] of them. *)
Definition dealt_cards (shuffle : Deck -> Deck) (g : CardGame) : list Card :=
  take (Z.to_nat (num_players g * cards_per_player g))
       (dealing_deck shuffle (sort_deck g)).

(** * Properties *)

(** ** Sequencing *)

Lemma bind_Ok {A B} (a : A) (k : A -> result B) : (Ok a ≫= k) = k a.
Proof. reflexivity. Qed.

Lemma bind_Raise {A B} (e : exn) (k : A -> result B) : (Raise e ≫= k) = Raise e.
Proof. reflexivity. Qed.

(** ** The stable sort *)

Section StableSortFacts.
Context {A : Type} (leb : A -> A -> bool).
Hypothesis leb_total : forall x y, leb x y = true \/ leb y x = true.
Hypothesis leb_trans : forall x y z,
  leb x y = true -> leb y z = true -> leb x z = true.

Let le (x y : A) : Prop := leb x y = true.

Lemma insert_stable_perm x l : insert_stable leb x l ≡ₚ x :: l.
Proof.
  induction l as [|y l IH]; simpl; [done|].
  destruct (leb x y); [done|].
  rewrite IH. apply Permutation_swap.
Qed.

Lemma stable_sort_perm l : stable_sort leb l ≡ₚ l.
Proof.
  induction l as [|x l IH]; simpl; [done|].
  by rewrite insert_stable_perm, IH.
Qed.

Lemma insert_stable_sorted x l :
  StronglySorted le l -> StronglySorted le (insert_stable leb x l).
Proof.
  induction 1 as [|y l Hl IH Hy]; simpl.
  - repeat constructor.
  - destruct (leb x y) eqn:Hxy.
    + constructor; [by constructor|].
      constructor; [done|].
      eapply Forall_impl; [exact Hy|].
      intros z Hz. by apply leb_trans with y.
    + constructor; [done|].
      rewrite insert_stable_perm. constructor; [|done].
      destruct (leb_total x y); [congruence|done].
Qed.

Lemma stable_sort_sorted l : StronglySorted le (stable_sort leb l).
Proof.
  induction l; simpl; [constructor|by apply insert_stable_sorted].
Qed.

(** A list that is in order already is left as it is. *)
Lemma stable_sort_id l : Sorted le l -> stable_sort leb l = l.
Proof.
  induction 1 as [|x l Hl IH Hx]; simpl; [done|].
  rewrite IH. destruct Hx as [|y l Hxy]; simpl; [done|].
  unfold le in Hxy. by rewrite Hxy.
Qed.

(** Two insertions commute unless the elements are equivalent. *)
Lemma insert_stable_comm x y l :
  ~ (leb x y = true /\ leb y x = true) ->
  insert_stable leb x (insert_stable leb y l)
  = insert_stable leb y (insert_stable leb x l).
Proof.
  intros Hne. induction l as [|z l IH]; simpl.
  - destruct (leb x y) eqn:Hxy, (leb y x) eqn:Hyx; try done.
    + destruct Hne; done.
    + destruct (leb_total x y); congruence.
  - destruct (leb y z) eqn:Hyz, (leb x z) eqn:Hxz; simpl;
      rewrite ?Hyz, ?Hxz;
      destruct (leb x y) eqn:Hxy, (leb y x) eqn:Hyx; simpl;
      rewrite ?Hyz, ?Hxz; try done;
      try (destruct Hne; done);
      try (destruct (leb_total x y); congruence).
    + pose proof (leb_trans _ _ _ Hxy Hyz). congruence.
    + pose proof (leb_trans _ _ _ Hyx Hxz). congruence.
Qed.
End StableSortFacts.

(** ** Sorting twice: by the minor key, then by the major key *)

Section TwoPasses.
Context {A : Type} (minor major : A -> A -> bool).
Hypothesis minor_total : forall x y, minor x y = true \/ minor y x = true.
Hypothesis minor_trans : forall x y z,
  minor x y = true -> minor y z = true -> minor x z = true.
Hypothesis major_total : forall x y, major x y = true \/ major y x = true.
Hypothesis major_trans : forall x y z,
  major x y = true -> major y z = true -> major x z = true.

Lemma lex_leb_total x y :
  lex_leb major minor x y = true \/ lex_leb major minor y x = true.
Proof.
  unfold lex_leb.
  destruct (major_total x y) as [H|H], (minor_total x y) as [H'|H'];
    rewrite ?H, ?H'; destruct (major x y), (major y x); simpl; auto.
Qed.

Lemma lex_leb_trans x y z :
  lex_leb major minor x y = true -> lex_leb major minor y z = true ->
  lex_leb major minor x z = true.
Proof.
  unfold lex_leb. intros Hxy Hyz.
  apply andb_true_iff in Hxy as [Hxy Hxy'], Hyz as [Hyz Hyz'].
  rewrite (major_trans _ _ _ Hxy Hyz). simpl.
  destruct (major z x) eqn:Hzx; simpl; [|done].
  rewrite (major_trans _ _ _ Hyz Hzx) in Hxy'.
  rewrite (major_trans _ _ _ Hzx Hxy) in Hyz'.
  simpl in *. eauto.
Qed.

(** Below elements that the minor order puts after [x], inserting [x] by
    the major order and by the lexicographic order is the same. *)
Lemma insert_major_lex x l :
  Forall (fun z => minor x z = true) l ->
  insert_stable major x l = insert_stable (lex_leb major minor) x l.
Proof.
  induction 1 as [|z l Hz _ IH]; simpl; [done|].
  unfold lex_leb at 1. rewrite Hz, orb_true_r, andb_true_r, IH. done.
Qed.

Lemma stable_sort_insert_minor x l :
  StronglySorted (fun a b => minor a b = true) l ->
  stable_sort major (insert_stable minor x l)
  = insert_stable (lex_leb major minor) x (stable_sort major l).
Proof.
  induction 1 as [|y l Hl IH Hy]; simpl; [done|].
  destruct (minor x y) eqn:Hxy; simpl.
  - apply insert_major_lex.
    rewrite insert_stable_perm, stable_sort_perm.
    constructor; [done|].
    eapply Forall_impl; [exact Hy|]. intros z Hz. by apply minor_trans with y.
  - assert (Hyx : minor y x = true) by (destruct (minor_total x y); congruence).
    rewrite IH.
    rewrite insert_major_lex.
    2:{ rewrite insert_stable_perm, stable_sort_perm. by constructor. }
    rewrite (insert_major_lex y).
    2:{ by rewrite stable_sort_perm. }
    apply insert_stable_comm.
    + apply lex_leb_total.
    + apply lex_leb_trans.
    + unfold lex_leb. intros [H1 H2].
      apply andb_true_iff in H1 as [H1 _], H2 as [H2 H2'].
      rewrite H1, Hxy in H2'. done.
Qed.

(** The two sorts of [Deck.sort] make one sort by the lexicographic
    order. *)
Lemma stable_sort_twice l :
  stable_sort major (stable_sort minor l)
  = stable_sort (lex_leb major minor) l.
Proof.
  induction l as [|x l IH]; simpl; [done|].
  rewrite stable_sort_insert_minor, IH; [done|].
  by apply stable_sort_sorted.
Qed.
End TwoPasses.

(** ** Cards *)

Lemma suit_values_lookup s w :
  suit_values !! s = Some w <->
  (s = "Spades" /\ w = 1) \/ (s = "Diamonds" /\ w = 2)
  \/ (s = "Hearts" /\ w = 3) \/ (s = "Clubs" /\ w = 4).
Proof.
  unfold suit_values. rewrite !lookup_insert_Some, lookup_empty.
  split.
  - intros [[<- <-]|[_ [[<- <-]|[_ [[<- <-]|[_ [[<- <-]|[_ ?]]]]]]]];
      [tauto..|discriminate].
  - intros [[-> ->] | [[-> ->] | [[-> ->] | [-> ->]]]]; auto 10.
Qed.

Lemma legal_suit_iff s :
  legal_suit s <-> s = "Spades" \/ s = "Diamonds" \/ s = "Hearts" \/ s = "Clubs".
Proof. unfold legal_suit, suits. rewrite !elem_of_cons, elem_of_nil. tauto. Qed.

Lemma suit_values_legal s : legal_suit s <-> is_Some (suit_values !! s).
Proof.
  rewrite legal_suit_iff. split.
  - intros [-> | [-> | [-> | ->]]]; by eexists.
  - intros [w Hw]. apply suit_values_lookup in Hw. tauto.
Qed.

(** Distinct suits have distinct weights. *)
Lemma suit_values_inj s1 s2 w :
  suit_values !! s1 = Some w -> suit_values !! s2 = Some w -> s1 = s2.
Proof. rewrite !suit_values_lookup. intros H1 H2. destruct_or!; destruct_and!; subst; done. Qed.

Lemma subscript_Ok d k v : subscript d k = Ok v <-> d !! k = Some v.
Proof. unfold subscript. destruct (d !! k); split; congruence. Qed.

Lemma Card_init_Ok r s c :
  Card_init r s = Ok c <-> suit_values !! s = Some (suit_sort c) /\ rank c = r /\ suit c = s.
Proof.
  unfold Card_init, subscript. destruct c as [r' s' w'], (suit_values !! s); simpl.
  - split; [intros [= -> -> ->]; done|intros ([= ->] & -> & ->); done].
  - split; [done|intros [[=] _]].
Qed.

(** Decides that a given rank or suit is legal, or that a suit is not. *)
Ltac legality :=
  first [ unfold legal_rank; lia
        | apply legal_suit_iff; auto 6
        | rewrite legal_suit_iff; intros [?|[?|[?|?]]]; discriminate ].

Lemma Card_init_legal r s :
  legal_suit s ->
  exists w, suit_values !! s = Some w /\ Card_init r s = Ok (mkCard r s w).
Proof.
  intros [w Hw]%suit_values_legal. exists w. split; [done|].
  unfold Card_init, subscript. by rewrite Hw.
Qed.

Lemma Card_init_illegal r s :
  ~ legal_suit s -> Card_init r s = Raise (KeyError s).
Proof.
  rewrite suit_values_legal. intros Hs. unfold Card_init, subscript.
  destruct (suit_values !! s) eqn:E; [|done]. destruct Hs. by eexists.
Qed.

(** C2, as the spec states it, fails: with the Ace of Spades on the left
    and the Ace of Clubs on the right the suits differ, the weights 1 and 4
    are compared, and [Card.__gt__] does not return [True]. *)
Lemma C2_ace_of_spades_not_gt_ace_of_clubs :
  ~ (c1 ← Card_init 14 "Spades"; c2 ← Card_init 14 "Clubs"; Card_gt c1 c2)
    = Ok true.
Proof. vm_compute. discriminate. Qed.

(** C2, amended: the comparison holds in the other direction.  The Ace of
    Clubs is greater than the Ace of Spades (weight 4 against weight 1),
    and the Ace of Spades is not greater than the Ace of Clubs. *)
Theorem C2_ace_of_clubs_gt_ace_of_spades :
  (c1 ← Card_init 14 "Clubs"; c2 ← Card_init 14 "Spades"; Card_gt c1 c2)
    = Ok true
  /\ (c1 ← Card_init 14 "Spades"; c2 ← Card_init 14 "Clubs"; Card_gt c1 c2)
    = Ok false.
Proof. split; reflexivity. Qed.

(** C3, as the spec states it, fails: [Card.__init__] looks the suit up in
    [suit_values], so the construction of a card of a suit that is not one
    of the four names raises [KeyError]; [Card(2, "Joker")] does. *)
Lemma C3_Card_init_unknown_suit_raises :
  Card_init 2 "Joker" = Raise (KeyError "Joker")
  /\ ~ (forall r s, exists c, Card_init r s = Ok c).
Proof.
  split; [reflexivity|].
  intros H. destruct (H 2 "Joker"%string) as [c Hc]. vm_compute in Hc. discriminate.
Qed.

(** C3, amended: the rank is not validated, and the suit is validated by
    the lookup of its weight.  For every rank, within 2-14 or not, the
    construction succeeds when the suit is one of the four names, and gives
    the card of that rank and suit; for any other suit it raises
    [KeyError]. *)
Theorem C3_Card_init_validates_suit_only (r : Z) (s : string) :
  (legal_suit s ->
     exists w, suit_values !! s = Some w /\ Card_init r s = Ok (mkCard r s w))
  /\ (~ legal_suit s -> Card_init r s = Raise (KeyError s)).
Proof. split; [apply Card_init_legal|apply Card_init_illegal]. Qed.

Lemma C3_Card_init_validates_suit_only_witness :
  (exists w, suit_values !! "Hearts" = Some w
             /\ Card_init 99 "Hearts" = Ok (mkCard 99 "Hearts" w))
  /\ Card_init (-1) "Joker" = Raise (KeyError "Joker").
Proof.
  split.
  - apply (C3_Card_init_validates_suit_only 99 "Hearts"). legality.
  - apply (C3_Card_init_validates_suit_only (-1) "Joker"). legality.
Defined.

(** C5: for two cards of legal ranks and suits, both constructions succeed
    and the comparison returns a boolean; between cards of one suit it is
    true exactly when the rank of the first exceeds the rank of the second,
    and between cards of different suits exactly when the weight of the
    first suit exceeds the weight of the second, whatever the ranks. *)
Theorem C5_Card_gt_spec (r1 r2 : Z) (s1 s2 : string) :
  legal_rank r1 -> legal_rank r2 -> legal_suit s1 -> legal_suit s2 ->
  exists c1 c2 w1 w2 b,
    Card_init r1 s1 = Ok c1 /\ Card_init r2 s2 = Ok c2
    /\ suit_values !! s1 = Some w1 /\ suit_values !! s2 = Some w2
    /\ Card_gt c1 c2 = Ok b
    /\ (s1 = s2 -> (b = true <-> r1 > r2))
    /\ (s1 <> s2 -> (b = true <-> w1 > w2)).
Proof.
  intros _ _ Hs1 Hs2.
  destruct (Card_init_legal r1 s1 Hs1) as (w1 & Hw1 & Hc1).
  destruct (Card_init_legal r2 s2 Hs2) as (w2 & Hw2 & Hc2).
  exists (mkCard r1 s1 w1), (mkCard r2 s2 w2), w1, w2.
  unfold Card_gt; simpl. destruct (String.eqb_spec s1 s2) as [->|Hne].
  - exists (r1 >? r2). repeat split; try done; rewrite Z.gtb_gt; done.
  - exists (w1 >? w2). unfold subscript. rewrite Hw1, Hw2; simpl.
    repeat split; try done; rewrite Z.gtb_gt; done.
Qed.

(** The example of C5: the 4 of Hearts is greater than the 5 of Diamonds. *)
Lemma C5_Card_gt_spec_witness :
  exists c1 c2,
    Card_init 4 "Hearts" = Ok c1 /\ Card_init 5 "Diamonds" = Ok c2
    /\ Card_gt c1 c2 = Ok true.
Proof.
  destruct (C5_Card_gt_spec 4 5 "Hearts" "Diamonds")
    as (c1 & c2 & w1 & w2 & b & H1 & H2 & Hw1 & Hw2 & Hgt & _ & Hb).
  - legality.
  - legality.
  - legality.
  - legality.
  - exists c1, c2. repeat split; [done..|].
    rewrite Hgt. f_equal. apply Hb; [done|].
    vm_compute in Hw1, Hw2. injection Hw1 as <-. injection Hw2 as <-. lia.
Defined.

(** ** The deck *)

Lemma card_leb_le a b :
  lex_leb suit_leb rank_leb a b = true <-> card_le a b.
Proof.
  unfold lex_leb, suit_leb, rank_leb, card_le.
  rewrite andb_true_iff, orb_true_iff, negb_true_iff, Z.leb_gt, !Z.leb_le. lia.
Qed.

Lemma StronglySorted_weaken {A} (R R' : A -> A -> Prop) l :
  (forall x y, R x y -> R' x y) -> StronglySorted R l -> StronglySorted R' l.
Proof.
  intros HR. induction 1 as [|x l _ IH Hx]; constructor; [done|].
  eapply Forall_impl; [exact Hx|]. auto.
Qed.

Lemma Sorted_weaken {A} (R R' : A -> A -> Prop) l :
  (forall x y, R x y -> R' x y) -> Sorted R l -> Sorted R' l.
Proof.
  intros HR. induction 1 as [|x l _ IH Hx]; constructor; [done|].
  destruct Hx; constructor; auto.
Qed.

(** [Deck.sort] is the stable sort by suit weight and then rank. *)
Lemma Deck_sort_lex l : Deck_sort l = stable_sort (lex_leb suit_leb rank_leb) l.
Proof.
  unfold Deck_sort, sort_by_key. apply (stable_sort_twice rank_leb suit_leb);
    unfold rank_leb, suit_leb; intros; rewrite ?Z.leb_le in *; lia.
Qed.

Lemma card_leb_total a b :
  lex_leb suit_leb rank_leb a b = true \/ lex_leb suit_leb rank_leb b a = true.
Proof. rewrite !card_leb_le. unfold card_le. lia. Qed.

Lemma card_leb_trans a b c :
  lex_leb suit_leb rank_leb a b = true -> lex_leb suit_leb rank_leb b c = true ->
  lex_leb suit_leb rank_leb a c = true.
Proof. rewrite !card_leb_le. unfold card_le. lia. Qed.

Lemma Deck_sort_sorted l : StronglySorted card_le (Deck_sort l).
Proof.
  rewrite Deck_sort_lex.
  eapply StronglySorted_weaken; [intros x y; apply card_leb_le|].
  apply stable_sort_sorted; [apply card_leb_total|apply card_leb_trans].
Qed.

Lemma Deck_sort_perm l : Deck_sort l ≡ₚ l.
Proof. rewrite Deck_sort_lex. apply stable_sort_perm. Qed.

Lemma Deck_sort_id l : Sorted card_le l -> Deck_sort l = l.
Proof.
  intros Hl. rewrite Deck_sort_lex. apply stable_sort_id.
  eapply Sorted_weaken; [intros x y; apply card_leb_le|done].
Qed.

(** C6: whatever the arrangement of the cards, [Deck.sort] leaves the same
    cards in ascending order of suit weight and, within a suit, of rank;
    sorting a deck that is in this order leaves it unchanged, so sorting
    twice is sorting once. *)
Theorem C6_Deck_sort_spec (the_deck : Deck) :
  StronglySorted card_le (Deck_sort the_deck)
  /\ Deck_sort the_deck ≡ₚ the_deck
  /\ (Sorted card_le the_deck -> Deck_sort the_deck = the_deck)
  /\ Deck_sort (Deck_sort the_deck) = Deck_sort the_deck.
Proof.
  split; [apply Deck_sort_sorted|].
  split; [apply Deck_sort_perm|].
  split; [apply Deck_sort_id|].
  apply Deck_sort_id, StronglySorted_Sorted, Deck_sort_sorted.
Qed.

(** The example of the docstring of [Deck.sort], which is in order. *)
Lemma C6_Deck_sort_spec_witness :
  Deck_sort [mkCard 2 "Spades" 1; mkCard 13 "Spades" 1; mkCard 5 "Diamonds" 2;
             mkCard 3 "Hearts" 3; mkCard 14 "Clubs" 4]
  = [mkCard 2 "Spades" 1; mkCard 13 "Spades" 1; mkCard 5 "Diamonds" 2;
     mkCard 3 "Hearts" 3; mkCard 14 "Clubs" 4].
Proof.
  pose proof (C6_Deck_sort_spec
    [mkCard 2 "Spades" 1; mkCard 13 "Spades" 1; mkCard 5 "Diamonds" 2;
     mkCard 3 "Hearts" 3; mkCard 14 "Clubs" 4]) as (_ & _ & Hid & _).
  apply Hid. unfold card_le. repeat constructor; simpl; lia.
Defined.

(** *** Construction and dealing *)

Lemma Deck_init_standard : Deck_init = Ok standard_deck.
Proof. reflexivity. Qed.

Lemma standard_deck_pairs_legal :
  Forall (fun c => legal_rank (rank c) /\ legal_suit (suit c)) standard_deck.
Proof. repeat constructor; simpl; legality. Qed.

Lemma standard_deck_complete r s :
  legal_rank r -> legal_suit s -> (r, s) ∈ map (fun c => (rank c, suit c)) standard_deck.
Proof.
  intros Hr Hs. apply legal_suit_iff in Hs.
  assert (Hrs : r = 2 \/ r = 3 \/ r = 4 \/ r = 5 \/ r = 6 \/ r = 7 \/ r = 8
          \/ r = 9 \/ r = 10 \/ r = 11 \/ r = 12 \/ r = 13 \/ r = 14)
    by (unfold legal_rank in Hr; lia).
  destruct_or!; subst; apply (bool_decide_unpack _); vm_compute; exact I.
Qed.

Lemma Deck_deal_cons top rest : Deck_deal (top :: rest) = (Some top, rest).
Proof. reflexivity. Qed.

Lemma deal_many_exhausted n : deal_many n [] = (replicate n None, []).
Proof. induction n as [|n IH]; simpl; [done|]. by rewrite IH. Qed.

Lemma deal_many_all d n :
  deal_many (length d + n) d = (map Some d ++ replicate n None, []).
Proof.
  induction d as [|c d IH]; simpl; [apply deal_many_exhausted|].
  by rewrite IH.
Qed.

(** C8: a new deck holds 52 cards, one for each pair of a rank in 2-14 and
    one of the four suits and no pair twice, suit by suit in the order of
    [Deck.suits] and by ascending rank within a suit; [deal] on a deck that
    is not empty returns its first card and leaves the others, one card
    fewer; [deal] on an empty deck returns [None] and leaves the deck
    empty, so that the 52 calls on a new deck return its cards in order and
    every later call returns [None]. *)
Theorem C8_Deck_init_deal_spec :
  (exists the_deck,
     Deck_init = Ok the_deck
     /\ the_deck = standard_deck
     /\ length the_deck = 52%nat
     /\ NoDup (map (fun c => (rank c, suit c)) the_deck)
     /\ (forall r s, (r, s) ∈ map (fun c => (rank c, suit c)) the_deck
                     <-> legal_rank r /\ legal_suit s)
     /\ (forall n, deal_many (52 + n) the_deck
                   = (map Some the_deck ++ replicate n None, [])))
  /\ (forall the_deck : Deck, the_deck <> [] ->
       exists top rest,
         the_deck = top :: rest
         /\ Deck_deal the_deck = (Some top, rest)
         /\ S (length rest) = length the_deck)
  /\ Deck_deal [] = (None, [])
  /\ (forall n, deal_many n [] = (replicate n None, [])).
Proof.
  split; [|split; [|split]].
  - exists standard_deck. split; [apply Deck_init_standard|].
    split; [done|]. split; [done|].
    split; [apply (bool_decide_unpack _); vm_compute; exact I|].
    split.
    + intros r s. split; [|intros []; by apply standard_deck_complete].
      intros (c & [= -> ->] & Hc)%list_elem_of_fmap.
      pose proof standard_deck_pairs_legal as H.
      rewrite Forall_forall in H. by apply H.
    + intros n. apply (deal_many_all standard_deck n).
  - intros [|top rest] Hne; [done|]. by exists top, rest.
  - done.
  - apply deal_many_exhausted.
Qed.

Lemma C8_Deck_init_deal_spec_witness :
  exists top rest,
    [mkCard 14 "Clubs" 4; mkCard 2 "Spades" 1] = top :: rest
    /\ Deck_deal [mkCard 14 "Clubs" 4; mkCard 2 "Spades" 1] = (Some top, rest)
    /\ S (length rest) = length [mkCard 14 "Clubs" 4; mkCard 2 "Spades" 1].
Proof.
  pose proof C8_Deck_init_deal_spec as (_ & Hdeal & _).
  apply (Hdeal [mkCard 14 "Clubs" 4; mkCard 2 "Spades" 1]). discriminate.
Defined.

(** ** Players *)

Lemma for_each_app {A S} (body : S -> A -> result S) s l1 l2 :
  for_each body s (l1 ++ l2) = (s' ← for_each body s l1; for_each body s' l2).
Proof.
  revert s. induction l1 as [|x l1 IH]; intros s; simpl; [done|].
  destruct (body s x) as [s'|e]; simpl; [apply IH|done].
Qed.

Lemma hand_value_snoc hand c :
  hand_value (hand ++ [c])
  = (total ← hand_value hand; v ← card_value c; Ok (total + v)).
Proof.
  unfold hand_value. rewrite for_each_app.
  destruct (for_each _ 0 hand) as [total|e]; simpl; [|done].
  by destruct (card_value c).
Qed.

Lemma card_value_legal c :
  legal_suit (suit c) ->
  exists w, suit_values !! suit c = Some w /\ card_value c = Ok (rank c * w).
Proof.
  intros [w Hw]%suit_values_legal. exists w. split; [done|].
  unfold card_value, subscript. by rewrite Hw.
Qed.

Lemma Player_init_invariant n : score_invariant (Player_init n).
Proof. reflexivity. Qed.

Lemma add_card_Ok p c p' :
  add_card p c = Ok p' ->
  exists v, card_value c = Ok v /\ name p' = name p
            /\ cards p' = cards p ++ [c] /\ score p' = score p + v.
Proof.
  unfold add_card. destruct (card_value c) as [v|e]; simpl; [|done].
  intros [= <-]. by exists v.
Qed.

Lemma add_card_invariant p c p' :
  score_invariant p -> add_card p c = Ok p' -> score_invariant p'.
Proof.
  unfold score_invariant. intros Hp (v & Hv & _ & Hcards & Hscore)%add_card_Ok.
  rewrite Hcards, hand_value_snoc, Hp, Hv, Hscore. done.
Qed.

Lemma add_card_legal p c :
  legal_suit (suit c) ->
  exists p', add_card p c = Ok p' /\ name p' = name p /\ cards p' = cards p ++ [c].
Proof.
  intros (w & _ & Hv)%card_value_legal. unfold add_card. rewrite Hv. simpl.
  by eexists.
Qed.

Lemma player_state_invariant p : player_state p -> score_invariant p.
Proof.
  induction 1 as [n|p c p' _ IH Hadd];
    [apply Player_init_invariant|by eapply add_card_invariant].
Qed.

(** C9: the score of a player is the sum of [card_value] over the cards of
    the hand.  A new player has an empty hand and the score 0; [add_card]
    keeps the equation, and it succeeds on every card of a legal suit,
    adding the card at the end of the hand; so the equation holds in every
    state of a player. *)
Theorem C9_score_is_hand_value :
  (forall n, cards (Player_init n) = [] /\ score (Player_init n) = 0
             /\ score_invariant (Player_init n))
  /\ (forall p c p',
        score_invariant p -> add_card p c = Ok p' -> score_invariant p')
  /\ (forall p c, legal_suit (suit c) ->
        exists p', add_card p c = Ok p' /\ cards p' = cards p ++ [c])
  /\ (forall p, player_state p -> hand_value (cards p) = Ok (score p)).
Proof.
  split; [intros n; repeat split|].
  split; [apply add_card_invariant|].
  split; [|apply player_state_invariant].
  intros p c Hc. destruct (add_card_legal p c Hc) as (p' & ? & _ & ?). eauto.
Qed.

(** The Ace of Clubs, worth 56, added to the hand of a new player. *)
Lemma C9_score_is_hand_value_witness :
  score_invariant (mkPlayer "Player 1" [mkCard 14 "Clubs" 4] 56).
Proof.
  pose proof C9_score_is_hand_value as (_ & Hadd & _).
  apply (Hadd (Player_init 1) (mkCard 14 "Clubs" 4)); reflexivity.
Defined.

(** ** The game *)

Lemma CardGame_init_two sort cpp :
  CardGame_init 2 sort cpp
  = Ok (mkCardGame [Player_init 1; Player_init 2] [0; 1]%nat 2 sort cpp).
Proof. reflexivity. Qed.

Lemma CardGame_init_not_two n sort cpp :
  n <> 2 ->
  CardGame_init n sort cpp = Raise (ValueError "Incorrect player count specified.").
Proof.
  intros Hn. unfold CardGame_init, GAME_PLAYERS_REQUIRED.
  destruct (Z.eqb_spec n 2); [done|reflexivity].
Qed.

(** C7: the construction of a game raises the error of a wrong player
    count ([ValueError], with the message of the source) exactly when the
    count is not 2, and then raises nothing else; with the count 2 it
    succeeds and the game holds two players, named "Player 1" and
    "Player 2" in this order, with empty hands and the score 0. *)
Theorem C7_CardGame_init_spec (n : Z) (sort : bool) (cpp : Z) :
  (CardGame_init n sort cpp
     = Raise (ValueError "Incorrect player count specified.") <-> n <> 2)
  /\ ((exists e, CardGame_init n sort cpp = Raise e) <-> n <> 2)
  /\ (n = 2 ->
      exists g, CardGame_init n sort cpp = Ok g
        /\ players g = [0; 1]%nat
        /\ heap g = [mkPlayer "Player 1" [] 0; mkPlayer "Player 2" [] 0]
        /\ num_players g = 2 /\ sort_deck g = sort /\ cards_per_player g = cpp).
Proof.
  split; [|split].
  - split; [|apply CardGame_init_not_two].
    intros H ->. by rewrite CardGame_init_two in H.
  - split; [|intros H; eexists; by apply CardGame_init_not_two].
    intros [e H] ->. by rewrite CardGame_init_two in H.
  - intros ->. eexists. split; [apply CardGame_init_two|done].
Qed.

(** The counts 0, 1 and 3 are refused and the count 2 is accepted. *)
Lemma C7_CardGame_init_spec_witness :
  CardGame_init 0 false 3 = Raise (ValueError "Incorrect player count specified.")
  /\ CardGame_init 1 false 3 = Raise (ValueError "Incorrect player count specified.")
  /\ CardGame_init 3 false 3 = Raise (ValueError "Incorrect player count specified.")
  /\ exists g, CardGame_init 2 false 3 = Ok g /\ players g = [0; 1]%nat
       /\ heap g = [mkPlayer "Player 1" [] 0; mkPlayer "Player 2" [] 0]
       /\ num_players g = 2 /\ sort_deck g = false /\ cards_per_player g = 3.
Proof.
  split; [apply (C7_CardGame_init_spec 0 false 3); lia|].
  split; [apply (C7_CardGame_init_spec 1 false 3); lia|].
  split; [apply (C7_CardGame_init_spec 3 false 3); lia|].
  apply (C7_CardGame_init_spec 2 false 3). reflexivity.
Defined.

(** *** Dealing *)

Lemma deal_loop_deal deck cp n g :
  deal_loop deck cp n g
  = if n >? 0 then
      match Deck_deal deck with
      | (None, _) => Ok g
      | (Some next_card, deck') =>
          r ← list_item (players g) cp;
          p ← deref (heap g) r;
          p' ← add_card p next_card;
          deal_loop deck' ((cp + 1) `mod` num_players g) (n - 1)
            (set_heap g (<[r := p']> (heap g)))
      end
    else Ok g.
Proof. by destruct deck. Qed.

(** What the loop keeps in a game of two players: it ends without an
    exception, the names, the list of the players and the configuration
    are unchanged, and so is the invariant of the scores. *)
Lemma deal_loop_two deck cp n g :
  num_players g = 2 -> players g = [0; 1]%nat -> length (heap g) = 2%nat ->
  0 <= cp < 2 -> Forall (fun c => legal_suit (suit c)) deck ->
  exists g',
    deal_loop deck cp n g = Ok g'
    /\ players g' = players g /\ map name (heap g') = map name (heap g)
    /\ num_players g' = 2 /\ sort_deck g' = sort_deck g
    /\ cards_per_player g' = cards_per_player g
    /\ (Forall score_invariant (heap g) -> Forall score_invariant (heap g')).
Proof.
  intros Hnum Hps Hlen Hcp Hdeck. revert cp n g Hnum Hps Hlen Hcp.
  induction Hdeck as [|c deck Hc _ IH]; intros cp n g Hnum Hps Hlen Hcp; simpl.
  { exists g. by destruct (n >? 0). }
  destruct (n >? 0); [|by exists g].
  assert (exists r : nat, list_item (players g) cp = Ok r /\ (r < 2)%nat)
    as (r & -> & Hr).
  { rewrite Hps. assert (cp = 0 \/ cp = 1) as [->| ->] by lia;
      [exists 0%nat|exists 1%nat]; split; (reflexivity || lia). }
  destruct (lookup_lt_is_Some_2 (heap g) r) as [p Hp]; [lia|].
  rewrite bind_Ok. unfold deref at 1. rewrite Hp, bind_Ok.
  destruct (add_card_legal p c Hc) as (p' & Hadd & Hname & _).
  rewrite Hadd, bind_Ok.
  destruct (IH ((cp + 1) `mod` num_players g) (n - 1)
              (set_heap g (<[r := p']> (heap g))))
    as (g' & Hg' & Hps' & Hnames & Hnum' & Hsort & Hcpp & Hinv); simpl.
  - done.
  - done.
  - by rewrite length_insert.
  - rewrite Hnum. apply Z.mod_pos_bound. lia.
  - exists g'. split; [done|]. simpl in *.
    split; [done|]. split.
    + rewrite Hnames, list_fmap_insert, Hname.
      apply list_insert_id. by rewrite list_lookup_fmap, Hp.
    + repeat split; try done. intros Hall. apply Hinv.
      apply Forall_insert; [done|].
      eapply add_card_invariant; [|exact Hadd].
      rewrite Forall_forall in Hall. apply Hall. by eapply list_elem_of_lookup_2.
Qed.

Lemma standard_deck_suits : Forall (fun c => legal_suit (suit c)) standard_deck.
Proof.
  eapply Forall_impl; [apply standard_deck_pairs_legal|]. by intros c [_ ?].
Qed.

Lemma standard_deck_weights :
  Forall (fun c => suit_values !! suit c = Some (suit_sort c)) standard_deck.
Proof. repeat constructor. Qed.

(** Cards of the standard deck that the order does not tell apart are the
    same card. *)
Lemma standard_deck_antisym c1 c2 :
  c1 ∈ standard_deck -> c2 ∈ standard_deck ->
  card_le c1 c2 -> card_le c2 c1 -> c1 = c2.
Proof.
  pose proof standard_deck_weights as Hw. rewrite Forall_forall in Hw.
  intros H1%Hw H2%Hw Hle1 Hle2.
  assert (suit_sort c1 = suit_sort c2 /\ rank c1 = rank c2) as [Hs Hr]
    by (unfold card_le in *; lia).
  destruct c1 as [r1 s1 w1], c2 as [r2 s2 w2]; simpl in *; subst.
  f_equal. by eapply suit_values_inj.
Qed.

(** However the standard deck is shuffled, sorting it gives it back. *)
Lemma Deck_sort_shuffled d : d ≡ₚ standard_deck -> Deck_sort d = standard_deck.
Proof.
  intros Hd. apply (StronglySorted_unique_strong card_le).
  - intros c1 c2 H1 H2. apply standard_deck_antisym; [|done].
    by rewrite Deck_sort_perm, Hd in H1.
  - apply Deck_sort_sorted.
  - change standard_deck with (Deck_sort standard_deck). apply Deck_sort_sorted.
  - by rewrite Deck_sort_perm.
Qed.

(** A game of two players is played without an exception, whatever the
    shuffle; the players keep their names and the scores their invariant. *)
Lemma play_card_game_two shuffle sort cpp :
  shuffle standard_deck ≡ₚ standard_deck ->
  exists g p1 p2,
    play_card_game shuffle
      (mkCardGame [Player_init 1; Player_init 2] [0; 1]%nat 2 sort cpp) = Ok g
    /\ players g = [0; 1]%nat /\ heap g = [p1; p2]
    /\ name p1 = "Player 1" /\ name p2 = "Player 2"
    /\ score_invariant p1 /\ score_invariant p2
    /\ num_players g = 2 /\ sort_deck g = sort /\ cards_per_player g = cpp.
Proof.
  intros Hperm. unfold play_card_game. rewrite Deck_init_standard, bind_Ok.
  set (g0 := mkCardGame _ _ _ _ _).
  set (deck := if sort_deck g0 then _ else _).
  assert (Hdeck : deck ≡ₚ standard_deck).
  { unfold deck. destruct (sort_deck g0); [by rewrite Deck_sort_perm|done]. }
  destruct (deal_loop_two deck 0 (num_players g0 * cards_per_player g0) g0)
    as (g & Hg & Hps & Hnames & Hnum & Hsort & Hcpp & Hinv);
    [done|done|done|lia|by rewrite Hdeck; apply standard_deck_suits|].
  destruct (heap g) as [|p1 [|p2 [|p3 h]]] eqn:Hheap; try done.
  injection Hnames as Hn1 Hn2.
  assert (Forall score_invariant [p1; p2]) as Hall
    by (apply Hinv; repeat constructor).
  exists g, p1, p2. rewrite Hheap.
  repeat split; try done.
  - by apply (Forall_inv Hall).
  - by apply (Forall_inv (Forall_inv_tail Hall)).
Qed.

(** C4: a game of two players with the deck sorted and three cards each
    is played without an exception, whatever the shuffle; the first player
    holds the 2, 4 and 6 of Spades and has the score 12, the second holds
    the 3, 5 and 7 of Spades and has the score 15, and [show_winner]
    returns "Player 2". *)
Theorem C4_sorted_game (shuffle : Deck -> Deck) :
  (forall d, shuffle d ≡ₚ d) ->
  exists g0 g g',
    CardGame_init 2 true 3 = Ok g0
    /\ play_card_game shuffle g0 = Ok g
    /\ players g = [0; 1]%nat
    /\ heap g =
        [mkPlayer "Player 1"
           [mkCard 2 "Spades" 1; mkCard 4 "Spades" 1; mkCard 6 "Spades" 1] 12;
         mkPlayer "Player 2"
           [mkCard 3 "Spades" 1; mkCard 5 "Spades" 1; mkCard 7 "Spades" 1] 15]
    /\ show_winner g = Ok ("Player 2", g').
Proof.
  intros Hperm. eexists _, _, _.
  split; [apply CardGame_init_two|].
  unfold play_card_game. rewrite Deck_init_standard, bind_Ok. simpl sort_deck.
  rewrite (Deck_sort_shuffled _ (Hperm _)).
  split; [reflexivity|]. split; [reflexivity|]. split; reflexivity.
Qed.

Lemma C4_sorted_game_witness :
  exists g0 g g',
    CardGame_init 2 true 3 = Ok g0
    /\ play_card_game reverse_shuffle g0 = Ok g
    /\ players g = [0; 1]%nat
    /\ heap g =
        [mkPlayer "Player 1"
           [mkCard 2 "Spades" 1; mkCard 4 "Spades" 1; mkCard 6 "Spades" 1] 12;
         mkPlayer "Player 2"
           [mkCard 3 "Spades" 1; mkCard 5 "Spades" 1; mkCard 7 "Spades" 1] 15]
    /\ show_winner g = Ok ("Player 2", g').
Proof.
  apply (C4_sorted_game reverse_shuffle).
  intros d. unfold reverse_shuffle. symmetry. apply Permutation_rev.
Defined.

(** *** The winner *)

(** [show_winner] between two players: the second is the winner when
    [compare > winner] holds for it, the first is otherwise; the store is
    as it was and the list of the players is empty. *)
Lemma show_winner_two g r1 r2 p1 p2 :
  players g = [r1; r2] -> heap g !! r1 = Some p1 -> heap g !! r2 = Some p2 ->
  show_winner g
  = Ok (name (if Player_gt p2 p1 then p2 else p1), set_players g []).
Proof.
  intros Hps H1 H2. unfold show_winner. rewrite Hps. simpl winner_loop.
  unfold deref. rewrite H1, H2, !bind_Ok.
  destruct (Player_gt p2 p1); [rewrite H2|rewrite H1]; reflexivity.
Qed.

(** A second call finds the list of the players empty. *)
Lemma show_winner_again g nm g' :
  show_winner g = Ok (nm, g') ->
  show_winner g' = Raise (IndexError "pop from empty list").
Proof.
  unfold show_winner. destruct (players g) as [|r ps]; [done|].
  destruct (winner_loop _ _ _) as [w|e]; [|done]. rewrite bind_Ok.
  destruct (deref _ _) as [p|e]; [|done]. rewrite bind_Ok.
  by intros [= _ <-].
Qed.

(** With every address of [self.players] in the store, the loop ends on an
    address of the store, and [show_winner] raises nothing unless the list
    is empty; it never writes to the store. *)
Lemma winner_loop_valid h ps w :
  Forall (fun r => (r < length h)%nat) ps -> (w < length h)%nat ->
  exists w', winner_loop h ps w = Ok w' /\ (w' < length h)%nat.
Proof.
  intros Hps. revert w. induction Hps as [|c ps Hc _ IH]; intros w Hw; simpl.
  { by exists w. }
  destruct (lookup_lt_is_Some_2 h c Hc) as [pc Hpc].
  destruct (lookup_lt_is_Some_2 h w Hw) as [pw Hpw].
  unfold deref. rewrite Hpc, Hpw, !bind_Ok.
  apply IH. by destruct (Player_gt pc pw).
Qed.

Lemma show_winner_valid g :
  refs_valid g -> players g <> [] ->
  exists nm g', show_winner g = Ok (nm, g')
    /\ heap g' = heap g /\ players g' = [].
Proof.
  unfold refs_valid, show_winner. destruct (players g) as [|r ps]; [done|].
  intros [Hr Hps]%Forall_cons _.
  destruct (winner_loop_valid (heap g) ps r Hps Hr) as (w & -> & Hw).
  destruct (lookup_lt_is_Some_2 (heap g) w Hw) as [pw Hpw].
  unfold deref. rewrite bind_Ok, Hpw, bind_Ok. by eexists _, _.
Qed.

Lemma played_refs_valid shuffle sort cpp g0 g :
  shuffle standard_deck ≡ₚ standard_deck ->
  CardGame_init 2 sort cpp = Ok g0 -> play_card_game shuffle g0 = Ok g ->
  refs_valid g.
Proof.
  intros Hperm Hinit Hplay.
  rewrite CardGame_init_two in Hinit. injection Hinit as <-.
  destruct (play_card_game_two shuffle sort cpp Hperm)
    as (g1 & p1 & p2 & Hg1 & Hps & Hheap & _).
  rewrite Hplay in Hg1. injection Hg1 as <-.
  unfold refs_valid. rewrite Hps, Hheap. repeat constructor.
Qed.

(** C1, as the spec states it, fails: [show_winner] takes the players off
    the list [self.players] with [pop(0)], so the call changes the game.
    In a game of two new players it returns "Player 1" and leaves the list
    of the players empty. *)
Lemma C1_show_winner_empties_players :
  CardGame_init 2 false 3 = Ok new_game
  /\ show_winner new_game = Ok ("Player 1", set_players new_game [])
  /\ players new_game = [0; 1]%nat
  /\ players (set_players new_game []) = []
  /\ ~ (forall g nm g', show_winner g = Ok (nm, g') -> players g' = players g).
Proof.
  repeat split.
  intros H. specialize (H new_game "Player 1" (set_players new_game []) eq_refl).
  discriminate.
Qed.

(** C1, amended: in a game that holds its two players, [show_winner]
    returns the name of the player of the strictly higher score; it leaves
    the store of the players as it was, so the hand and the score of each
    player are unchanged, and the configuration of the game too; it
    removes the players from the list [self.players], which it leaves
    empty. *)
Theorem C1_show_winner_spec (g : CardGame) (r1 r2 : nat) (p1 p2 : Player) :
  players g = [r1; r2] -> heap g !! r1 = Some p1 -> heap g !! r2 = Some p2 ->
  exists nm g',
    show_winner g = Ok (nm, g')
    /\ (score p2 < score p1 -> nm = name p1)
    /\ (score p1 < score p2 -> nm = name p2)
    /\ heap g' = heap g
    /\ players g' = []
    /\ num_players g' = num_players g
    /\ sort_deck g' = sort_deck g
    /\ cards_per_player g' = cards_per_player g.
Proof.
  intros Hps H1 H2. eexists _, _.
  split; [by apply (show_winner_two g r1 r2 p1 p2)|].
  unfold Player_gt, score.
  repeat split; try done; intros Hlt;
    destruct (Z.gtb_spec (player_score p2) (player_score p1)); (done || lia).
Qed.

(** The game of C4 after the cards are dealt: 12 points against 15. *)
Lemma C1_show_winner_spec_witness :
  exists nm g',
    show_winner
      (mkCardGame
         [mkPlayer "Player 1"
            [mkCard 2 "Spades" 1; mkCard 4 "Spades" 1; mkCard 6 "Spades" 1] 12;
          mkPlayer "Player 2"
            [mkCard 3 "Spades" 1; mkCard 5 "Spades" 1; mkCard 7 "Spades" 1] 15]
         [0; 1]%nat 2 true 3) = Ok (nm, g')
    /\ nm = "Player 2" /\ length (heap g') = 2%nat /\ players g' = [].
Proof.
  destruct (C1_show_winner_spec
    (mkCardGame
       [mkPlayer "Player 1"
          [mkCard 2 "Spades" 1; mkCard 4 "Spades" 1; mkCard 6 "Spades" 1] 12;
        mkPlayer "Player 2"
          [mkCard 3 "Spades" 1; mkCard 5 "Spades" 1; mkCard 7 "Spades" 1] 15]
       [0; 1]%nat 2 true 3) 0%nat 1%nat
    (mkPlayer "Player 1"
       [mkCard 2 "Spades" 1; mkCard 4 "Spades" 1; mkCard 6 "Spades" 1] 12)
    (mkPlayer "Player 2"
       [mkCard 3 "Spades" 1; mkCard 5 "Spades" 1; mkCard 7 "Spades" 1] 15))
    as (nm & g' & Hw & _ & Hnm & Hheap & Hps & _); [reflexivity..|].
  exists nm, g'. split; [done|].
  split; [apply Hnm; simpl; lia|]. by rewrite Hheap.
Defined.

Lemma tie_shuffle_perm d : tie_shuffle d ≡ₚ d.
Proof.
  unfold tie_shuffle. destruct (d !! 13%nat) as [c|] eqn:Hc; [|done].
  rewrite <- Permutation_middle, take_drop. symmetry.
  by apply delete_Permutation.
Qed.

(** C10: between two players of equal scores [show_winner] returns the
    name of the first; the first player is the winner unless the score of
    the second is strictly higher.  In a game built by [CardGame(2)] and
    played, the name returned on a tie is "Player 1". *)
Theorem C10_show_winner_tie :
  (forall g r1 r2 p1 p2,
     players g = [r1; r2] -> heap g !! r1 = Some p1 -> heap g !! r2 = Some p2 ->
     (score p1 = score p2 -> show_winner g = Ok (name p1, set_players g []))
     /\ (score p2 <= score p1 -> show_winner g = Ok (name p1, set_players g []))
     /\ (score p1 < score p2 -> show_winner g = Ok (name p2, set_players g [])))
  /\ (forall shuffle sort cpp g0 g p1 p2,
       (forall d, shuffle d ≡ₚ d) ->
       CardGame_init 2 sort cpp = Ok g0 -> play_card_game shuffle g0 = Ok g ->
       heap g = [p1; p2] -> score p1 = score p2 ->
       show_winner g = Ok ("Player 1", set_players g [])).
Proof.
  assert (Htwo : forall g r1 r2 p1 p2,
    players g = [r1; r2] -> heap g !! r1 = Some p1 -> heap g !! r2 = Some p2 ->
    (score p2 <= score p1 -> show_winner g = Ok (name p1, set_players g []))
    /\ (score p1 < score p2 -> show_winner g = Ok (name p2, set_players g []))).
  { intros g r1 r2 p1 p2 Hps H1 H2.
    rewrite (show_winner_two g r1 r2 p1 p2 Hps H1 H2). unfold Player_gt, score.
    split; intros Hlt;
      destruct (Z.gtb_spec (player_score p2) (player_score p1)); (done || lia). }
  split.
  - intros g r1 r2 p1 p2 Hps H1 H2.
    destruct (Htwo g r1 r2 p1 p2 Hps H1 H2) as [Hle Hlt].
    repeat split; [intros Heq; apply Hle; lia|done..].
  - intros shuffle sort cpp g0 g p1 p2 Hperm Hinit Hplay Hheap Heq.
    rewrite CardGame_init_two in Hinit. injection Hinit as <-.
    destruct (play_card_game_two shuffle sort cpp (Hperm _))
      as (g1 & q1 & q2 & Hg1 & Hps & Hheap1 & Hn1 & _).
    rewrite Hplay in Hg1. injection Hg1 as <-.
    rewrite Hheap in Hheap1. injection Hheap1 as <- <-.
    rewrite <- Hn1.
    apply (Htwo g 0%nat 1%nat p1 p2 Hps); [by rewrite Hheap..|lia].
Qed.

(** A tie in a played game: the shuffle leaves the 2 to 6 of Spades and the
    2 of Diamonds on top of the deck, and both players are dealt 12 points. *)
Lemma C10_show_winner_tie_witness :
  exists g,
    play_card_game tie_shuffle new_game = Ok g
    /\ map score (heap g) = [12; 12]
    /\ show_winner g = Ok ("Player 1", set_players g []).
Proof.
  pose proof C10_show_winner_tie as [_ Hplayed].
  eexists. split; [reflexivity|]. split; [reflexivity|].
  eapply (Hplayed tie_shuffle false 3 new_game).
  - apply tie_shuffle_perm.
  - reflexivity.
  - reflexivity.
  - reflexivity.
  - reflexivity.
Defined.

(** * Further properties *)

(** ** Cards: value and order *)

Lemma constructed_iff c :
  constructed c <-> suit_values !! suit c = Some (suit_sort c).
Proof. unfold constructed. rewrite Card_init_Ok. by intuition. Qed.

Lemma Card_init_constructed r s c : Card_init r s = Ok c -> constructed c.
Proof. rewrite Card_init_Ok, constructed_iff. by intros (? & _ & <-). Qed.

Lemma constructed_weight c :
  constructed c -> 1 <= suit_sort c <= 4 /\ legal_suit (suit c).
Proof.
  rewrite constructed_iff. intros Hc. split.
  - apply suit_values_lookup in Hc. lia.
  - apply suit_values_legal. by eexists.
Qed.

(** Cards built by the constructor are equal when they have the same rank
    and the same weight. *)
Lemma constructed_eq a b :
  constructed a -> constructed b ->
  suit_sort a = suit_sort b -> rank a = rank b -> a = b.
Proof.
  rewrite !constructed_iff. destruct a as [ra sa wa], b as [rb sb wb]; simpl.
  intros Ha Hb -> ->. f_equal. by eapply suit_values_inj.
Qed.

(** The value of a card: for every card built by the constructor
    [card_value] raises nothing and returns the rank times the weight of
    the suit, the weight that the constructor stored in [suit_sort]; for a
    rank of the deck the value lies between 2 and 56. *)
Theorem X1_card_value_constructed (r : Z) (s : string) (c : Card) :
  Card_init r s = Ok c ->
  card_value c = Ok (r * suit_sort c)
  /\ subscript suit_values s = Ok (suit_sort c)
  /\ (legal_rank r -> exists v, card_value c = Ok v /\ 2 <= v <= 56).
Proof.
  intros Hc. pose proof (Card_init_constructed _ _ _ Hc) as Hw.
  apply constructed_weight in Hw as [Hw _].
  apply Card_init_Ok in Hc as (Hs & <- & <-).
  assert (Hv : card_value c = Ok (rank c * suit_sort c)).
  { unfold card_value, subscript. by rewrite Hs. }
  split; [done|]. split; [by apply subscript_Ok|].
  intros Hr. eexists. split; [exact Hv|]. unfold legal_rank in Hr. nia.
Qed.

(** The Ace of Clubs is worth 56. *)
Lemma X1_card_value_constructed_witness :
  card_value (mkCard 14 "Clubs" 4) = Ok 56.
Proof.
  apply (X1_card_value_constructed 14 "Clubs" (mkCard 14 "Clubs" 4)).
  reflexivity.
Defined.

(** [Card.__gt__] on cards built by the constructor: the strict part of
    the order [Deck.sort] sorts by. *)
Lemma Card_gt_constructed a b :
  constructed a -> constructed b ->
  Card_gt a b
  = Ok (bool_decide (suit_sort b < suit_sort a
                     \/ (suit_sort b = suit_sort a /\ rank b < rank a))).
Proof.
  intros Ha Hb. pose proof Ha as Ha'. pose proof Hb as Hb'.
  rewrite constructed_iff in Ha', Hb'.
  unfold Card_gt, subscript. rewrite Ha', Hb', !bind_Ok.
  destruct (String.eqb_spec (suit a) (suit b)) as [Heq|Hne]; f_equal.
  - assert (suit_sort a = suit_sort b) by congruence.
    destruct (Z.gtb_spec (rank a) (rank b));
      symmetry; [apply bool_decide_eq_true|apply bool_decide_eq_false]; lia.
  - assert (suit_sort a <> suit_sort b).
    { intros Hw. apply Hne. eapply suit_values_inj; [done|]. by rewrite Hw. }
    destruct (Z.gtb_spec (suit_sort a) (suit_sort b));
      symmetry; [apply bool_decide_eq_true|apply bool_decide_eq_false]; lia.
Qed.

(** The comparison of cards agrees with the order of the sort: between
    cards built by the constructor [a > b] raises nothing, and it is true
    exactly when [b] comes before [a], and [a] not before [b], in the order
    by suit weight and then rank. *)
Theorem X2_Card_gt_is_sort_order (a b : Card) :
  constructed a -> constructed b ->
  exists res, Card_gt a b = Ok res
    /\ (res = true <-> card_le b a /\ ~ card_le a b).
Proof.
  intros Ha Hb. eexists. split; [by apply Card_gt_constructed|].
  rewrite bool_decide_eq_true. unfold card_le. lia.
Qed.

Lemma X2_Card_gt_is_sort_order_witness :
  exists res, Card_gt (mkCard 2 "Diamonds" 2) (mkCard 14 "Spades" 1) = Ok res
    /\ (res = true <->
        card_le (mkCard 14 "Spades" 1) (mkCard 2 "Diamonds" 2)
        /\ ~ card_le (mkCard 2 "Diamonds" 2) (mkCard 14 "Spades" 1)).
Proof.
  apply (X2_Card_gt_is_sort_order (mkCard 2 "Diamonds" 2) (mkCard 14 "Spades" 1));
    reflexivity.
Defined.

(** The comparison is a strict total order on the cards built by the
    constructor: no card is greater than itself, the comparison is
    transitive, and of two different cards exactly one is greater than the
    other. *)
Theorem X3_Card_gt_strict_total_order :
  (forall a, constructed a -> Card_gt a a = Ok false)
  /\ (forall a b c, constructed a -> constructed b -> constructed c ->
        Card_gt a b = Ok true -> Card_gt b c = Ok true -> Card_gt a c = Ok true)
  /\ (forall a b, constructed a -> constructed b -> a <> b ->
        (Card_gt a b = Ok true /\ Card_gt b a = Ok false)
        \/ (Card_gt a b = Ok false /\ Card_gt b a = Ok true)).
Proof.
  split; [|split].
  - intros a Ha. rewrite Card_gt_constructed by done. f_equal.
    apply bool_decide_eq_false. lia.
  - intros a b c Ha Hb Hc. rewrite !Card_gt_constructed by done.
    intros [= Hab%bool_decide_eq_true] [= Hbc%bool_decide_eq_true]. f_equal.
    apply bool_decide_eq_true. lia.
  - intros a b Ha Hb Hne. rewrite !Card_gt_constructed by done.
    assert (suit_sort a <> suit_sort b \/ rank a <> rank b) as Hdiff.
    { destruct (decide (suit_sort a = suit_sort b)) as [Hs|]; [|by left].
      right. intros Hr. by apply Hne, constructed_eq. }
    assert (Hcase : (suit_sort b < suit_sort a
                     \/ (suit_sort b = suit_sort a /\ rank b < rank a))
                    \/ (suit_sort a < suit_sort b
                        \/ (suit_sort a = suit_sort b /\ rank a < rank b)))
      by lia.
    destruct Hcase; [left|right]; split; f_equal;
      (apply bool_decide_eq_true || apply bool_decide_eq_false); lia.
Qed.

Lemma X3_Card_gt_strict_total_order_witness :
  Card_gt (mkCard 3 "Hearts" 3) (mkCard 3 "Hearts" 3) = Ok false
  /\ Card_gt (mkCard 2 "Clubs" 4) (mkCard 14 "Spades" 1) = Ok true
  /\ ((Card_gt (mkCard 4 "Hearts" 3) (mkCard 5 "Diamonds" 2) = Ok true
       /\ Card_gt (mkCard 5 "Diamonds" 2) (mkCard 4 "Hearts" 3) = Ok false)
      \/ (Card_gt (mkCard 4 "Hearts" 3) (mkCard 5 "Diamonds" 2) = Ok false
          /\ Card_gt (mkCard 5 "Diamonds" 2) (mkCard 4 "Hearts" 3) = Ok true)).
Proof.
  pose proof X3_Card_gt_strict_total_order as (Hirr & Htrans & Htotal).
  split; [apply Hirr; reflexivity|].
  split.
  - apply (Htrans _ (mkCard 5 "Diamonds" 2)); reflexivity.
  - apply Htotal; [reflexivity|reflexivity|discriminate].
Defined.

(** ** Cards: display *)

Lemma append_cons c s1 s2 : String c s1 +:+ s2 = String c (s1 +:+ s2).
Proof. reflexivity. Qed.

Lemma append_length s1 s2 :
  String.length (s1 +:+ s2) = (String.length s1 + String.length s2)%nat.
Proof.
  induction s1 as [|c s1 IH]; [done|]. rewrite append_cons. simpl. by rewrite IH.
Qed.

Lemma append_assoc s1 s2 s3 : (s1 +:+ s2) +:+ s3 = s1 +:+ (s2 +:+ s3).
Proof.
  induction s1 as [|c s1 IH]; [done|]. by rewrite !append_cons, IH.
Qed.

(** Two strings that end in suffixes of one length are equal only if the
    suffixes are, and what is before them. *)
Lemma append_suffix_inj a1 a2 b1 b2 :
  String.length b1 = String.length b2 ->
  a1 +:+ b1 = a2 +:+ b2 -> a1 = a2 /\ b1 = b2.
Proof.
  intros Hlen. revert a2.
  induction a1 as [|c a1 IH]; intros [|c' a2] Heq;
    rewrite ?append_cons in Heq; change ("" +:+ ?s) with s in *.
  - done.
  - apply (f_equal String.length) in Heq. simpl in Heq.
    rewrite append_length in Heq. lia.
  - apply (f_equal String.length) in Heq. simpl in Heq.
    rewrite append_length in Heq. lia.
  - injection Heq as -> Heq. apply IH in Heq as [-> ->]. done.
Qed.

(** The decimal notation of a number starts with a digit or a sign. *)
Lemma pretty_N_go_head x s :
  (0 < x)%N -> exists n s', pretty_N_go x s = String (pretty_N_char n) s'.
Proof.
  revert s. induction (N.lt_wf_0 x) as [x _ IH]; intros s Hx.
  rewrite pretty_N_go_step by done.
  destruct (decide (x `div` 10 = 0)%N) as [Hdiv|Hdiv].
  - rewrite Hdiv, pretty_N_go_0.
    exists (x `mod` 10)%N, s. reflexivity.
  - apply IH; [by apply N.div_lt|by apply N.neq_0_lt_0].
Qed.

Lemma pretty_Z_head (z : Z) :
  exists c s', pretty z = String c s'
    /\ ((exists n, pretty_N_char n = c) \/ String c "" = "-").
Proof.
  assert (Hpos : forall p : positive, exists c s',
            pretty p = String c s'
            /\ ((exists n, pretty_N_char n = c) \/ String c "" = "-")).
  { intros q. unfold pretty, pretty_positive, pretty, pretty_N.
    destruct (decide (N.pos q = 0%N)) as [|_]; [done|].
    destruct (pretty_N_go_head (N.pos q) "") as (d & s' & ->); [lia|].
    eexists _, _. split; [done|]. left. by exists d. }
  destruct z as [|q|q]; unfold pretty, pretty_Z.
  - eexists _, "". split; [reflexivity|]. left. by exists 0%N.
  - apply Hpos.
  - eexists _, (pretty q). split; [reflexivity|]. by right.
Qed.

Lemma face_value_lookup r f :
  face_value !! r = Some f <->
  (r = 11 /\ f = "Jack") \/ (r = 12 /\ f = "Queen")
  \/ (r = 13 /\ f = "King") \/ (r = 14 /\ f = "Ace").
Proof.
  unfold face_value. rewrite !lookup_insert_Some, lookup_empty.
  split.
  - intros [[<- <-]|[_ [[<- <-]|[_ [[<- <-]|[_ [[<- <-]|[_ ?]]]]]]]];
      [tauto..|discriminate].
  - intros [[-> ->] | [[-> ->] | [[-> ->] | [-> ->]]]];
      repeat (first [left; split; [reflexivity|reflexivity]
                    | right; split; [discriminate|]]).
Qed.

Lemma face_name_not_number f r (z : Z) :
  face_value !! r = Some f -> f <> pretty z.
Proof.
  intros Hf Heq. destruct (pretty_Z_head z) as (c & s' & Hz & Hc).
  rewrite <- Heq in Hz. apply face_value_lookup in Hf.
  destruct Hc as [[n <-]|[= ->]];
    destruct Hf as [[_ ->] | [[_ ->] | [[_ ->] | [_ ->]]]];
    injection Hz as Hz _; revert Hz; unfold pretty_N_char;
    repeat case_match; discriminate.
Qed.

Lemma face_inj r1 r2 : face r1 = face r2 -> r1 = r2.
Proof.
  unfold face.
  destruct (face_value !! r1) as [f1|] eqn:H1,
           (face_value !! r2) as [f2|] eqn:H2; intros Heq.
  - subst f2. apply face_value_lookup in H1, H2.
    destruct H1 as [[-> ->] | [[-> ->] | [[-> ->] | [-> ->]]]];
      destruct H2 as [[-> ?] | [[-> ?] | [[-> ?] | [-> ?]]]];
      done.
  - by destruct (face_name_not_number f1 r1 r2 H1).
  - by destruct (face_name_not_number f2 r2 r1 H2).
  - by apply pretty_Z_inj.
Qed.

Lemma Card_str_inj a b :
  legal_suit (suit a) -> legal_suit (suit b) ->
  Card_str a = Card_str b -> rank a = rank b /\ suit a = suit b.
Proof.
  unfold Card_str. rewrite !legal_suit_iff. intros Ha Hb Heq.
  assert (Hsuit : suit a = suit b).
  { destruct Ha as [Ha | [Ha | [Ha | Ha]]], Hb as [Hb | [Hb | [Hb | Hb]]];
      rewrite Ha, Hb in *; try done; exfalso;
      try change "Spades" with ("Spad" +:+ "es") in Heq;
      try change "Diamonds" with ("Diamon" +:+ "ds") in Heq;
      try change "Hearts" with ("Hear" +:+ "ts") in Heq;
      try change "Clubs" with ("Clu" +:+ "bs") in Heq;
      rewrite <- !append_assoc in Heq;
      apply append_suffix_inj in Heq as [_ Heq]; done. }
  split; [|done]. rewrite Hsuit in Heq.
  apply append_suffix_inj in Heq as [Heq _]; [|done]. by apply face_inj.
Qed.

(** The display of a card tells the card: the face cards are displayed by
    their names and the other ranks by their numbers, and two cards of
    legal suits that are displayed alike have the same rank and the same
    suit, whatever the ranks. *)
Theorem X4_Card_str_inj (a b : Card) :
  legal_suit (suit a) -> legal_suit (suit b) ->
  Card_str a = Card_str b -> rank a = rank b /\ suit a = suit b.
Proof. exact (Card_str_inj a b). Qed.

Lemma X4_Card_str_inj_witness :
  Card_str (mkCard 13 "Spades" 1) = "King of Spades"
  /\ Card_str (mkCard 2 "Clubs" 4) = "2 of Clubs"
  /\ (Card_str (mkCard 13 "Spades" 1) = Card_str (mkCard 13 "Spades" 1) ->
      rank (mkCard 13 "Spades" 1) = 13).
Proof.
  split; [reflexivity|]. split; [reflexivity|].
  intros Heq.
  apply (X4_Card_str_inj (mkCard 13 "Spades" 1) (mkCard 13 "Spades" 1));
    [legality|legality|exact Heq].
Defined.

Lemma constructed_same_card a b :
  constructed a -> constructed b -> rank a = rank b -> suit a = suit b -> a = b.
Proof.
  rewrite !constructed_iff. destruct a as [ra sa wa], b as [rb sb wb]; simpl.
  intros Ha Hb -> ->. f_equal. congruence.
Qed.

(** [show_deck] prints one line for each card, in the order of the deck,
    and different cards give different lines: a deck without a duplicate
    is printed without a duplicate. *)
Theorem X5_show_deck_lines (the_deck : Deck) :
  Forall constructed the_deck ->
  length (show_deck the_deck) = length the_deck
  /\ (forall i c, the_deck !! i = Some c ->
        show_deck the_deck !! i = Some (Card_str c))
  /\ (NoDup the_deck -> NoDup (show_deck the_deck)).
Proof.
  intros Hall. unfold show_deck. split; [apply length_map|]. split.
  - intros i c Hi. change (map Card_str the_deck) with (Card_str <$> the_deck).
    rewrite list_lookup_fmap. unfold Deck in *. by rewrite Hi.
  - apply NoDup_fmap_2_strong. intros a b Ha Hb Heq.
    rewrite Forall_forall in Hall.
    pose proof (Hall a Ha) as Hca. pose proof (Hall b Hb) as Hcb.
    apply Card_str_inj in Heq as [Hr Hs];
      [by apply constructed_same_card
      |by apply constructed_weight|by apply constructed_weight].
Qed.

Lemma X5_show_deck_lines_witness :
  show_deck [mkCard 11 "Hearts" 3; mkCard 10 "Hearts" 3]
  = ["Jack of Hearts"; "10 of Hearts"]
  /\ NoDup (show_deck [mkCard 11 "Hearts" 3; mkCard 10 "Hearts" 3]).
Proof.
  split; [reflexivity|].
  apply (X5_show_deck_lines [mkCard 11 "Hearts" 3; mkCard 10 "Hearts" 3]).
  - repeat constructor.
  - apply NoDup_cons. split; [|apply NoDup_singleton].
    intros Hin. apply list_elem_of_singleton in Hin. discriminate.
Defined.

(** ** Players *)

(** The name of a player is "Player " followed by the decimal notation of
    the number given to the constructor, so that players constructed from
    different numbers have different names. *)
Theorem X6_Player_init_name_inj (n1 n2 : Z) :
  name (Player_init n1) = name (Player_init n2) -> n1 = n2.
Proof.
  unfold Player_init; simpl. intros Heq.
  apply (inj (String.append "Player ")) in Heq. by apply pretty_Z_inj.
Qed.

Lemma X6_Player_init_name_inj_witness :
  name (Player_init 10) = "Player 10"
  /\ (name (Player_init 10) = name (Player_init 10) -> 10 = 10).
Proof.
  split; [reflexivity|]. apply (X6_Player_init_name_inj 10 10).
Defined.

(** ** The deck *)

Lemma StronglySorted_NoDup_impl {A} (R R' : A -> A -> Prop) l :
  (forall x y, x ∈ l -> y ∈ l -> x <> y -> R x y -> R' x y) ->
  NoDup l -> StronglySorted R l -> StronglySorted R' l.
Proof.
  intros HR Hnd Hl. induction Hl as [|x l _ IH Hx]; [constructor|].
  apply NoDup_cons in Hnd as [Hx' Hnd]. constructor.
  - apply IH; [|done]. intros y z Hy Hz. apply HR; by right.
  - rewrite Forall_forall in *. intros y Hy.
    apply HR; [by left|by right| |by apply Hx]. by intros ->.
Qed.

Lemma StronglySorted_elem_impl {A} (R R' : A -> A -> Prop) l :
  (forall x y, x ∈ l -> y ∈ l -> R x y -> R' x y) ->
  StronglySorted R l -> StronglySorted R' l.
Proof.
  intros HR Hl. induction Hl as [|x l _ IH Hx]; [constructor|]. constructor.
  - apply IH. intros y z Hy Hz. apply HR; by right.
  - rewrite Forall_forall in *. intros y Hy.
    apply HR; [by left|by right|by apply Hx].
Qed.

(** After [Deck.sort] no card is greater than a card that comes later in
    the deck, and in a deck without a duplicate every card is greater than
    all the cards before it: the check that walks the sorted deck with
    [next_card > prev_card] finds it in order. *)
Theorem X7_Deck_sort_ascending (the_deck : Deck) :
  Forall constructed the_deck ->
  StronglySorted (fun a b => Card_gt a b = Ok false) (Deck_sort the_deck)
  /\ (NoDup the_deck ->
      StronglySorted (fun a b => Card_gt b a = Ok true) (Deck_sort the_deck)).
Proof.
  intros Hall.
  assert (Hsorted : Forall constructed (Deck_sort the_deck))
    by (by rewrite Deck_sort_perm).
  rewrite Forall_forall in Hsorted.
  pose proof (Deck_sort_sorted the_deck) as Hle. split.
  - eapply StronglySorted_elem_impl; [|exact Hle].
    intros a b Ha Hb Hab. simpl.
    rewrite Card_gt_constructed by auto. f_equal.
    apply bool_decide_eq_false. unfold card_le in Hab. lia.
  - intros Hnd. eapply StronglySorted_NoDup_impl; [| |exact Hle].
    + intros a b Ha Hb Hne Hab. simpl.
      rewrite Card_gt_constructed by auto. f_equal.
      apply bool_decide_eq_true.
      assert (suit_sort a <> suit_sort b \/ rank a <> rank b) as Hdiff.
      { destruct (decide (suit_sort a = suit_sort b)) as [Hs|]; [|by left].
        right. intros Hr. apply Hne. apply constructed_eq; auto. }
      unfold card_le in Hab. lia.
    + by rewrite Deck_sort_perm.
Qed.

Lemma X7_Deck_sort_ascending_witness :
  StronglySorted (fun a b => Card_gt b a = Ok true)
    (Deck_sort [mkCard 14 "Clubs" 4; mkCard 3 "Hearts" 3; mkCard 13 "Spades" 1;
                mkCard 5 "Diamonds" 2; mkCard 2 "Spades" 1]).
Proof.
  apply (X7_Deck_sort_ascending
    [mkCard 14 "Clubs" 4; mkCard 3 "Hearts" 3; mkCard 13 "Spades" 1;
     mkCard 5 "Diamonds" 2; mkCard 2 "Spades" 1]).
  - repeat constructor.
  - repeat (apply NoDup_cons; split;
            [rewrite ?elem_of_cons, elem_of_nil; intros Hin;
             repeat destruct Hin as [Hin|Hin]; done|]).
    apply NoDup_nil_2.
Defined.

(** Sorting undoes shuffling: whatever the order in which the 52 cards of
    a new deck are put, [Deck.sort] puts them back in the order in which
    [Deck.__init__] built them. *)
Theorem X15_sort_restores_new_deck (the_deck shuffled : Deck) :
  Deck_init = Ok the_deck -> shuffled ≡ₚ the_deck ->
  Deck_sort shuffled = the_deck.
Proof.
  rewrite Deck_init_standard. intros [= <-]. apply Deck_sort_shuffled.
Qed.

Lemma X15_sort_restores_new_deck_witness :
  Deck_sort (tie_shuffle (reverse_shuffle standard_deck)) = standard_deck.
Proof.
  apply (X15_sort_restores_new_deck standard_deck); [reflexivity|].
  rewrite tie_shuffle_perm. unfold reverse_shuffle. symmetry.
  apply Permutation_rev.
Defined.

(** [n] calls of [deal] return the first [n] cards of the deck in order,
    then [None] once for every call made after the deck is exhausted, and
    leave the deck without its first [n] cards. *)
Theorem X8_deal_many_take_drop (n : nat) (the_deck : Deck) :
  deal_many n the_deck
  = (map Some (take n the_deck) ++ replicate (n - length the_deck) None,
     drop n the_deck).
Proof.
  revert the_deck. induction n as [|n IH]; intros [|c d]; simpl; try done.
  - specialize (IH []). rewrite take_nil, drop_nil in IH. simpl in IH.
    rewrite IH. by rewrite Nat.sub_0_r.
  - by rewrite IH.
Qed.

(** ** The game: dealing *)

Lemma every_other_cons {A} (x : A) l :
  every_other (x :: l) = x :: every_other (tail l).
Proof. by destruct l. Qed.

Lemma every_other_perm {A} (l : list A) :
  every_other l ++ every_other (tail l) ≡ₚ l.
Proof.
  induction l as [|x l IH]; [done|].
  rewrite every_other_cons. simpl tail. simpl app. constructor.
  by rewrite (comm app).
Qed.

Lemma every_other_length {A} (l : list A) :
  length (every_other l) = Nat.div2 (S (length l))
  /\ length (every_other (tail l)) = Nat.div2 (length l).
Proof.
  induction l as [|x l [IH1 IH2]]; [done|].
  rewrite every_other_cons. simpl tail. simpl length. rewrite IH1, IH2.
  split; [|done]. by destruct (length l).
Qed.

(** The loop of [play_card_game] between two players, started at either
    of them: the player whose turn it is receives the first, third, ...
    of the cards dealt and the other player the second, fourth, ...; each
    hand grows at its end. *)
Lemma deal_loop_hands deck cp n g p1 p2 :
  Forall (fun c => legal_suit (suit c)) deck ->
  num_players g = 2 -> players g = [0; 1]%nat -> heap g = [p1; p2] ->
  cp = 0 \/ cp = 1 ->
  exists g' q1 q2,
    deal_loop deck cp n g = Ok g' /\ heap g' = [q1; q2]
    /\ cards q1 = cards p1 ++
         (if decide (cp = 0) then every_other (take (Z.to_nat n) deck)
          else every_other (tail (take (Z.to_nat n) deck)))
    /\ cards q2 = cards p2 ++
         (if decide (cp = 0) then every_other (tail (take (Z.to_nat n) deck))
          else every_other (take (Z.to_nat n) deck)).
Proof.
  intros Hdeck. revert cp n g p1 p2.
  induction Hdeck as [|c deck Hc _ IH]; intros cp n g p1 p2 Hnum Hps Hheap Hcp.
  { exists g, p1, p2. rewrite take_nil. simpl.
    destruct (n >? 0), (decide (cp = 0)); by rewrite !app_nil_r. }
  simpl deal_loop. destruct (Z.gtb_spec n 0) as [Hn|Hn].
  2:{ exists g, p1, p2. replace (Z.to_nat n) with 0%nat by lia. simpl.
      destruct (decide (cp = 0)); by rewrite !app_nil_r. }
  replace (Z.to_nat n) with (S (Z.to_nat (n - 1))) by lia.
  rewrite firstn_cons, every_other_cons. simpl tail.
  rewrite Hps, Hheap, Hnum.
  destruct Hcp as [-> | ->].
  - destruct (add_card_legal p1 c Hc) as (p1' & Hadd & _ & Hcards).
    change (list_item [0; 1]%nat 0) with (Ok 0%nat).
    rewrite bind_Ok. change (deref [p1; p2] 0) with (Ok p1).
    rewrite bind_Ok, Hadd, bind_Ok.
    destruct (IH 1 (n - 1) (set_heap g [p1'; p2]) p1' p2)
      as (g' & q1 & q2 & Hg' & Hheap' & Hq1 & Hq2); [done|done|done|by right|].
    exists g', q1, q2. split; [exact Hg'|]. split; [done|].
    rewrite Hq1, Hq2, Hcards. simpl. by rewrite <- app_assoc.
  - destruct (add_card_legal p2 c Hc) as (p2' & Hadd & _ & Hcards).
    change (list_item [0; 1]%nat 1) with (Ok 1%nat).
    rewrite bind_Ok. change (deref [p1; p2] 1) with (Ok p2).
    rewrite bind_Ok, Hadd, bind_Ok.
    destruct (IH 0 (n - 1) (set_heap g [p1; p2']) p1 p2')
      as (g' & q1 & q2 & Hg' & Hheap' & Hq1 & Hq2); [done|done|done|by left|].
    exists g', q1, q2. split; [exact Hg'|]. split; [done|].
    rewrite Hq1, Hq2, Hcards. simpl. by rewrite <- app_assoc.
Qed.

Lemma dealing_deck_perm shuffle sort :
  shuffle standard_deck ≡ₚ standard_deck ->
  dealing_deck shuffle sort ≡ₚ standard_deck.
Proof. intros Hperm. unfold dealing_deck. by destruct sort. Qed.

(** [play_card_game] deals from [dealing_deck]. *)
Lemma play_card_game_deal shuffle g :
  shuffle standard_deck ≡ₚ standard_deck ->
  play_card_game shuffle g
  = deal_loop (dealing_deck shuffle (sort_deck g)) 0
      (num_players g * cards_per_player g) g.
Proof.
  intros Hperm. unfold play_card_game, dealing_deck.
  rewrite Deck_init_standard, bind_Ok.
  destruct (sort_deck g); [|done]. by rewrite Deck_sort_shuffled.
Qed.

Lemma play_card_game_hands (shuffle : Deck -> Deck) (g : CardGame)
    (p1 p2 : Player) :
  shuffle standard_deck ≡ₚ standard_deck ->
  num_players g = 2 -> players g = [0; 1]%nat -> heap g = [p1; p2] ->
  exists g' q1 q2,
    play_card_game shuffle g = Ok g' /\ heap g' = [q1; q2]
    /\ cards q1 = cards p1 ++ every_other (dealt_cards shuffle g)
    /\ cards q2 = cards p2 ++ every_other (tail (dealt_cards shuffle g))
    /\ name q1 = name p1 /\ name q2 = name p2
    /\ players g' = players g /\ num_players g' = num_players g
    /\ sort_deck g' = sort_deck g /\ cards_per_player g' = cards_per_player g.
Proof.
  intros Hperm Hnum Hps Hheap. rewrite play_card_game_deal by done.
  assert (Hlegal : Forall (fun c => legal_suit (suit c))
                     (dealing_deck shuffle (sort_deck g))).
  { rewrite dealing_deck_perm by done. apply standard_deck_suits. }
  destruct (deal_loop_hands _ 0 (num_players g * cards_per_player g) g p1 p2
              Hlegal Hnum Hps Hheap) as (g' & q1 & q2 & Hg' & Hheap' & Hq1 & Hq2);
    [by left|].
  destruct (deal_loop_two (dealing_deck shuffle (sort_deck g)) 0
              (num_players g * cards_per_player g) g)
    as (g'' & Hg'' & Hps' & Hnames & Hnum' & Hsort & Hcpp & _);
    [done|done|by rewrite Hheap|lia|done|].
  rewrite Hg' in Hg''. injection Hg'' as <-.
  rewrite Hheap', Hheap in Hnames. injection Hnames as Hn1 Hn2.
  exists g', q1, q2. unfold dealt_cards.
  repeat split; try done. congruence.
Qed.

(** In a game of two players [play_card_game] raises nothing, whatever
    the shuffle, the sort option and the number of cards asked for; it
    deals the cards from the top of the deck in turns, starting with the
    first player: the first player receives the first, third, fifth, ...
    of the cards dealt and the second player the others, each hand growing
    at its end in the order of the deal; names, the list of the players
    and the configuration are unchanged. *)
Theorem X9_play_card_game_round_robin (shuffle : Deck -> Deck) (g : CardGame)
    (p1 p2 : Player) :
  shuffle standard_deck ≡ₚ standard_deck ->
  num_players g = 2 -> players g = [0; 1]%nat -> heap g = [p1; p2] ->
  exists g' q1 q2,
    play_card_game shuffle g = Ok g' /\ heap g' = [q1; q2]
    /\ cards q1 = cards p1 ++ every_other (dealt_cards shuffle g)
    /\ cards q2 = cards p2 ++ every_other (tail (dealt_cards shuffle g))
    /\ name q1 = name p1 /\ name q2 = name p2
    /\ players g' = players g /\ num_players g' = num_players g
    /\ sort_deck g' = sort_deck g /\ cards_per_player g' = cards_per_player g.
Proof. apply play_card_game_hands. Qed.

(** A second game played with the same [CardGame]: the players keep the
    cards of the first game and receive those of the second. *)
Lemma X9_play_card_game_round_robin_witness :
  exists g' q1 q2,
    play_card_game reverse_shuffle
      (mkCardGame
         [mkPlayer "Player 1" [mkCard 2 "Spades" 1] 2;
          mkPlayer "Player 2" [mkCard 3 "Spades" 1] 3] [0; 1]%nat 2 false 1)
    = Ok g'
    /\ heap g' = [q1; q2]
    /\ cards q1 = [mkCard 2 "Spades" 1; mkCard 14 "Clubs" 4]
    /\ cards q2 = [mkCard 3 "Spades" 1; mkCard 13 "Clubs" 4].
Proof.
  destruct (X9_play_card_game_round_robin reverse_shuffle
    (mkCardGame
       [mkPlayer "Player 1" [mkCard 2 "Spades" 1] 2;
        mkPlayer "Player 2" [mkCard 3 "Spades" 1] 3] [0; 1]%nat 2 false 1)
    (mkPlayer "Player 1" [mkCard 2 "Spades" 1] 2)
    (mkPlayer "Player 2" [mkCard 3 "Spades" 1] 3))
    as (g' & q1 & q2 & Hg' & Hheap & Hq1 & Hq2 & _).
  - unfold reverse_shuffle. symmetry. apply Permutation_rev.
  - reflexivity.
  - reflexivity.
  - reflexivity.
  - exists g', q1, q2. repeat split; [exact Hg'|exact Hheap|exact Hq1|exact Hq2].
Defined.

Lemma standard_deck_NoDup : NoDup standard_deck.
Proof.
  apply (NoDup_fmap_1 (fun c => (rank c, suit c))).
  apply (bool_decide_unpack _). vm_compute. exact I.
Qed.

Lemma standard_deck_length : length standard_deck = 52%nat.
Proof. reflexivity. Qed.

Lemma half_of_dealt (cpp : Z) :
  Nat.div2 (S (Nat.min (Z.to_nat (2 * cpp)) 52)) = Z.to_nat (Z.min cpp 26)
  /\ Nat.div2 (Nat.min (Z.to_nat (2 * cpp)) 52) = Z.to_nat (Z.min cpp 26).
Proof.
  rewrite !Nat.div2_div.
  pose proof (Nat.div_mod_eq (S (Nat.min (Z.to_nat (2 * cpp)) 52)) 2).
  pose proof (Nat.mod_upper_bound (S (Nat.min (Z.to_nat (2 * cpp)) 52)) 2).
  pose proof (Nat.div_mod_eq (Nat.min (Z.to_nat (2 * cpp)) 52) 2).
  pose proof (Nat.mod_upper_bound (Nat.min (Z.to_nat (2 * cpp)) 52) 2).
  lia.
Qed.

(** A game as the constructor builds it, once played: each player holds
    as many cards as were asked for, and 26 when more were asked for (the
    deal stops, without an exception, when the deck is exhausted; none
    when the number is negative); the two hands are made of cards of the
    deck and no card is in them twice; the score of each player is the
    value of the hand. *)
Theorem X10_played_hands (shuffle : Deck -> Deck) (n : Z) (sort : bool)
    (cpp : Z) (g0 : CardGame) :
  shuffle standard_deck ≡ₚ standard_deck ->
  CardGame_init n sort cpp = Ok g0 ->
  exists g q1 q2,
    play_card_game shuffle g0 = Ok g /\ heap g = [q1; q2]
    /\ length (cards q1) = Z.to_nat (Z.min cpp 26)
    /\ length (cards q2) = Z.to_nat (Z.min cpp 26)
    /\ NoDup (cards q1 ++ cards q2)
    /\ (forall c, c ∈ cards q1 ++ cards q2 -> c ∈ standard_deck)
    /\ hand_value (cards q1) = Ok (score q1)
    /\ hand_value (cards q2) = Ok (score q2).
Proof.
  intros Hperm Hinit.
  assert (n = 2) as ->.
  { destruct (decide (n = 2)) as [|Hn]; [done|].
    by rewrite CardGame_init_not_two in Hinit. }
  rewrite CardGame_init_two in Hinit. injection Hinit as <-.
  destruct (play_card_game_hands shuffle
              (mkCardGame [Player_init 1; Player_init 2] [0; 1]%nat 2 sort cpp)
              (Player_init 1) (Player_init 2) Hperm)
    as (g & q1 & q2 & Hg & Hheap & Hq1 & Hq2 & _); [done..|].
  destruct (play_card_game_two shuffle sort cpp Hperm)
    as (g' & q1' & q2' & Hg' & _ & Hheap' & _ & _ & Hinv1 & Hinv2 & _).
  rewrite Hg in Hg'. injection Hg' as <-.
  rewrite Hheap in Hheap'. injection Hheap' as <- <-.
  simpl in Hq1, Hq2. unfold dealt_cards in Hq1, Hq2. simpl in Hq1, Hq2.
  set (d := take (Z.to_nat (2 * cpp)) (dealing_deck shuffle sort)) in *.
  assert (Hd : d ++ drop (Z.to_nat (2 * cpp)) (dealing_deck shuffle sort)
               ≡ₚ standard_deck).
  { unfold d. rewrite take_drop. by apply dealing_deck_perm. }
  assert (Hlen : length d = Nat.min (Z.to_nat (2 * cpp)) 52).
  { unfold d. rewrite length_take, dealing_deck_perm by done. done. }
  assert (Hhands : cards q1 ++ cards q2 ≡ₚ d)
    by (rewrite Hq1, Hq2; apply every_other_perm).
  destruct (every_other_length d) as [Hl1 Hl2].
  exists g, q1, q2.
  split; [done|]. split; [done|].
  split; [rewrite Hq1, Hl1, Hlen; apply half_of_dealt|].
  split; [rewrite Hq2, Hl2, Hlen; apply half_of_dealt|].
  split; [|split; [|done]].
  - rewrite Hhands. pose proof standard_deck_NoDup as Hnd.
    rewrite <- Hd in Hnd. by apply NoDup_app in Hnd as [? _].
  - intros c Hc. rewrite Hhands in Hc. rewrite <- Hd.
    apply elem_of_app. by left.
Qed.

Lemma X10_played_hands_witness :
  exists g q1 q2,
    play_card_game tie_shuffle
      (mkCardGame [Player_init 1; Player_init 2] [0; 1]%nat 2 false 40) = Ok g
    /\ heap g = [q1; q2]
    /\ length (cards q1) = 26%nat /\ length (cards q2) = 26%nat.
Proof.
  destruct (X10_played_hands tie_shuffle 2 false 40
    (mkCardGame [Player_init 1; Player_init 2] [0; 1]%nat 2 false 40))
    as (g & q1 & q2 & Hg & Hheap & Hl1 & Hl2 & _).
  - apply tie_shuffle_perm.
  - reflexivity.
  - exists g, q1, q2. repeat split; [exact Hg|exact Hheap|exact Hl1|exact Hl2].
Defined.

(** With the sort option the deal does not depend on the shuffle: two
    shuffles of the deck give the same game. *)
Theorem X11_sort_overrides_shuffle (shuffle1 shuffle2 : Deck -> Deck)
    (g : CardGame) :
  shuffle1 standard_deck ≡ₚ standard_deck ->
  shuffle2 standard_deck ≡ₚ standard_deck ->
  sort_deck g = true ->
  play_card_game shuffle1 g = play_card_game shuffle2 g.
Proof.
  intros H1 H2 Hsort. rewrite !play_card_game_deal by done.
  by rewrite Hsort.
Qed.

Lemma X11_sort_overrides_shuffle_witness :
  play_card_game reverse_shuffle
    (mkCardGame [Player_init 1; Player_init 2] [0; 1]%nat 2 true 5)
  = play_card_game tie_shuffle
      (mkCardGame [Player_init 1; Player_init 2] [0; 1]%nat 2 true 5).
Proof.
  apply (X11_sort_overrides_shuffle reverse_shuffle tie_shuffle).
  - unfold reverse_shuffle. symmetry. apply Permutation_rev.
  - apply tie_shuffle_perm.
  - reflexivity.
Defined.

(** ** The game: the winner *)

(** The loop of [show_winner]: it ends on the running winner when no
    player left has a strictly higher score, and otherwise on the first
    player of the list whose score is strictly higher than the running
    winner's and than the scores of the players before. *)
Lemma winner_loop_first_max h ps w pw :
  Forall (fun r => (r < length h)%nat) ps -> h !! w = Some pw ->
  exists w' pw',
    winner_loop h ps w = Ok w' /\ h !! w' = Some pw'
    /\ ((w' = w /\ forall r p, r ∈ ps -> h !! r = Some p -> score p <= score pw)
        \/ (exists before after,
              ps = before ++ w' :: after /\ score pw < score pw'
              /\ (forall r p, r ∈ before -> h !! r = Some p -> score p < score pw')
              /\ (forall r p, r ∈ after -> h !! r = Some p -> score p <= score pw'))).
Proof.
  intros Hps. revert w pw.
  induction Hps as [|c ps Hc _ IH]; intros w pw Hw; simpl.
  { exists w, pw. split; [done|]. split; [done|]. left. split; [done|].
    intros r p Hr. by apply elem_of_nil in Hr. }
  destruct (lookup_lt_is_Some_2 h c Hc) as [pc Hpc].
  unfold deref. rewrite Hpc, Hw, !bind_Ok. unfold Player_gt, score in *.
  destruct (Z.gtb_spec (player_score pc) (player_score pw)) as [Hgt|Hle].
  - destruct (IH c pc Hpc) as (w' & pw' & Hloop & Hw' & Hcase).
    exists w', pw'. split; [done|]. split; [done|]. right.
    destruct Hcase as [[-> Hall]|(before & after & -> & Hlt & Hb & Ha)].
    + assert (pw' = pc) as -> by congruence.
      exists [], ps. split; [done|]. split; [lia|]. split; [|done].
      intros r p Hr. by apply elem_of_nil in Hr.
    + exists (c :: before), after. split; [done|]. split; [lia|]. split; [|done].
      intros r p [->|Hr]%elem_of_cons Hp; [|by eapply Hb].
      assert (p = pc) as -> by congruence. done.
  - destruct (IH w pw Hw) as (w' & pw' & Hloop & Hw' & Hcase).
    exists w', pw'. split; [done|]. split; [done|].
    destruct Hcase as [[-> Hall]|(before & after & -> & Hlt & Hb & Ha)].
    + left. split; [done|].
      intros r p [->|Hr]%elem_of_cons Hp; [|by eapply Hall].
      assert (p = pc) as -> by congruence. lia.
    + right. exists (c :: before), after.
      split; [done|]. split; [done|]. split; [|done].
      intros r p [->|Hr]%elem_of_cons Hp; [|by eapply Hb].
      assert (p = pc) as -> by congruence. lia.
Qed.

Lemma show_winner_first_max g :
  refs_valid g -> players g <> [] ->
  exists before r after p,
    players g = before ++ r :: after /\ heap g !! r = Some p
    /\ show_winner g = Ok (name p, set_players g [])
    /\ (forall r' p', r' ∈ before -> heap g !! r' = Some p' -> score p' < score p)
    /\ (forall r' p', r' ∈ after -> heap g !! r' = Some p' -> score p' <= score p).
Proof.
  unfold refs_valid, show_winner. destruct (players g) as [|r0 ps]; [done|].
  intros [Hr0 Hps]%Forall_cons _.
  destruct (lookup_lt_is_Some_2 (heap g) r0 Hr0) as [p0 Hp0].
  destruct (winner_loop_first_max (heap g) ps r0 p0 Hps Hp0)
    as (w & pw & -> & Hw & Hcase).
  unfold deref. rewrite bind_Ok, Hw, bind_Ok.
  destruct Hcase as [[-> Hall]|(before & after & -> & Hlt & Hb & Ha)].
  - assert (pw = p0) as -> by congruence.
    exists [], r0, ps, p0. repeat split; try done.
    intros r' p' Hr'. by apply elem_of_nil in Hr'.
  - exists (r0 :: before), w, after, pw. repeat split; try done.
    intros r' p' [->|Hr']%elem_of_cons Hp'; [|by eapply Hb].
    assert (p' = p0) as -> by congruence. done.
Qed.

(** [show_winner] for any number of players: when the list of the players
    is not empty it raises nothing and returns the name of a player of the
    highest score, the first of them in the list (the players before have
    strictly lower scores, the players after have no higher score); the
    [Player] objects are not written and the list is left empty. *)
Theorem X12_show_winner_first_highest (g : CardGame) :
  refs_valid g -> players g <> [] ->
  exists before r after p g',
    players g = before ++ r :: after /\ heap g !! r = Some p
    /\ show_winner g = Ok (name p, g')
    /\ (forall r' p', r' ∈ before -> heap g !! r' = Some p' -> score p' < score p)
    /\ (forall r' p', r' ∈ after -> heap g !! r' = Some p' -> score p' <= score p)
    /\ heap g' = heap g /\ players g' = [].
Proof.
  intros Hvalid Hne.
  destruct (show_winner_first_max g Hvalid Hne)
    as (before & r & after & p & Hps & Hp & Hshow & Hb & Ha).
  exists before, r, after, p, (set_players g []). by repeat split.
Qed.

(** Three players with the scores 5, 9 and 9: the second one wins. *)
Lemma X12_show_winner_first_highest_witness :
  exists g',
    show_winner
      (mkCardGame [mkPlayer "Player 1" [] 5; mkPlayer "Player 2" [] 9;
                   mkPlayer "Player 3" [] 9] [0; 1; 2]%nat 3 false 3)
    = Ok ("Player 2", g')
    /\ players g' = [].
Proof.
  destruct (X12_show_winner_first_highest
    (mkCardGame [mkPlayer "Player 1" [] 5; mkPlayer "Player 2" [] 9;
                 mkPlayer "Player 3" [] 9] [0; 1; 2]%nat 3 false 3))
    as (before & r & after & p & g' & _ & _ & Hshow & _ & _ & _ & Hps).
  - unfold refs_valid; simpl. repeat constructor.
  - discriminate.
  - exists g'. split; [|exact Hps].
    vm_compute in Hshow. injection Hshow as Hname <-.
    vm_compute. by rewrite Hname.
Defined.

(** [show_winner] can be called once: with no player in the list it
    raises [IndexError], and a call that returns leaves no player in the
    list, so that the next call raises [IndexError]. *)
Theorem X13_show_winner_once (g : CardGame) :
  (players g = [] -> show_winner g = Raise (IndexError "pop from empty list"))
  /\ (forall nm g', show_winner g = Ok (nm, g') ->
        show_winner g' = Raise (IndexError "pop from empty list")).
Proof.
  split.
  - intros Hps. unfold show_winner. by rewrite Hps.
  - intros nm g'. unfold show_winner. destruct (players g) as [|r ps]; [done|].
    destruct (winner_loop _ _ _) as [w|e]; [|done]. rewrite bind_Ok.
    destruct (deref _ _) as [p|e]; [|done]. rewrite bind_Ok.
    by intros [= _ <-].
Qed.

Lemma X13_show_winner_once_witness :
  show_winner (set_players new_game [])
  = Raise (IndexError "pop from empty list").
Proof.
  pose proof (X13_show_winner_once new_game) as [_ Hagain].
  apply (Hagain "Player 1" (set_players new_game [])). reflexivity.
Defined.

(** After [show_winner] the game cannot be played again: the list of the
    players is empty, and when there is a card to deal [play_card_game]
    raises [IndexError] at [self.players[current_player]]. *)
Theorem X16_play_after_show_winner (shuffle : Deck -> Deck) (g : CardGame)
    (nm : string) (g' : CardGame) :
  shuffle standard_deck ≡ₚ standard_deck ->
  show_winner g = Ok (nm, g') ->
  0 < num_players g * cards_per_player g ->
  play_card_game shuffle g' = Raise (IndexError "list index out of range").
Proof.
  intros Hperm Hshow Hn.
  assert (g' = set_players g []) as ->.
  { revert Hshow. unfold show_winner. destruct (players g) as [|r ps]; [done|].
    destruct (winner_loop _ _ _) as [w|e]; [|done]. rewrite bind_Ok.
    destruct (deref _ _) as [p|e]; [|done]. rewrite bind_Ok.
    by intros [= _ <-]. }
  rewrite play_card_game_deal by done. simpl.
  pose proof (dealing_deck_perm shuffle (sort_deck g) Hperm) as Hdeck.
  destruct (dealing_deck shuffle (sort_deck g)) as [|c d].
  { apply Permutation_length in Hdeck. discriminate. }
  simpl. destruct (Z.gtb_spec (num_players g * cards_per_player g) 0); [|lia].
  reflexivity.
Qed.

Lemma X16_play_after_show_winner_witness :
  play_card_game reverse_shuffle (set_players new_game [])
  = Raise (IndexError "list index out of range").
Proof.
  apply (X16_play_after_show_winner reverse_shuffle new_game "Player 1").
  - unfold reverse_shuffle. symmetry. apply Permutation_rev.
  - reflexivity.
  - reflexivity.
Defined.

(** ** The program *)

(** [main], once the arguments are parsed: whatever the shuffle it raises
    nothing and prints one line.  With a number of players other than 2 it
    prints the message of the [ValueError] after "Game over. " and ends
    without a [return], so that its value is [None]; with 2 players it
    prints the name of one of the two players followed by " wins!" and
    returns 0. *)
Theorem X14_main_spec (num_players : Z) (sort : bool) (shuffle : Deck -> Deck) :
  shuffle standard_deck ≡ₚ standard_deck ->
  (num_players <> 2 ->
     main num_players sort shuffle
     = Ok (["Game over. Incorrect player count specified." +:+ newline +:+ newline],
           None))
  /\ (num_players = 2 ->
      exists nm, main num_players sort shuffle = Ok ([nm +:+ " wins!"], Some 0)
        /\ (nm = "Player 1" \/ nm = "Player 2")).
Proof.
  intros Hperm. split.
  - intros Hn. unfold main. by rewrite CardGame_init_not_two.
  - intros ->. unfold main. rewrite CardGame_init_two.
    destruct (play_card_game_two shuffle sort 3 Hperm)
      as (g & p1 & p2 & -> & Hps & Hheap & Hn1 & Hn2 & _).
    rewrite bind_Ok.
    rewrite (show_winner_two g 0%nat 1%nat p1 p2 Hps) by (by rewrite Hheap).
    rewrite bind_Ok. simpl. eexists. split; [reflexivity|].
    destruct (Player_gt p2 p1); auto.
Qed.

Lemma X14_main_spec_witness :
  main 4 false reverse_shuffle
  = Ok (["Game over. Incorrect player count specified." +:+ newline +:+ newline],
        None)
  /\ exists nm, main 2 true reverse_shuffle = Ok ([nm +:+ " wins!"], Some 0)
       /\ (nm = "Player 1" \/ nm = "Player 2").
Proof.
  assert (Hperm : reverse_shuffle standard_deck ≡ₚ standard_deck)
    by (unfold reverse_shuffle; symmetry; apply Permutation_rev).
  split.
  - apply (X14_main_spec 4 false reverse_shuffle Hperm). lia.
  - apply (X14_main_spec 2 true reverse_shuffle Hperm). reflexivity.
Defined.
